(** * CougarsRPi: the PID control nodes

    A shallow embedding of the two control nodes of the repository,
    [PIDControl] (cougars_cpp/src/pid_control.cpp) and [CougControls]
    (cougars_control/src/coug_controls.cpp), and of the PID axis controller
    they drive.

    Number model.  A finite C++ [float] or [double] value is the rational
    ([Q]) it denotes.  A [double] operation is the exact operation followed
    by [to_double], the rounding to the nearest binary64 value (ties to
    even); storing a [double] in a [float] member is [to_float], the same
    for binary32; the negation and the conversion of an [int] or an [int16]
    to a floating type are exact.  The roundings are the IEEE ones as long
    as the result is finite ([double_range], [float_range]); infinities and
    NaN are outside the model.  The C++ [int] and the [int32] message
    fields are [Z]; the conversion of a floating value to an integer
    ([float_to_int]) drops the fraction and is defined in C++ only when the
    result is an [int] ([fits_int]); an [int] product that leaves the range
    wraps ([int_mul]).  A theorem whose conclusion depends on one of these
    carries it as a hypothesis.  The setpoint messages
    (frost_interfaces, not among the sources) carry [float32] fields, which
    the [float] members store as they are. *)

From Stdlib Require Import ZArith QArith Qround Qabs Qpower Qreduction.
From Stdlib Require Import List Bool Lia Lqa.
Import ListNotations.

Open Scope Q_scope.

(** ** Numeric conversions *)

Definition Qltb (x y : Q) : bool := negb (Qle_bool y x).

(** *** Rounding to a binary floating-point format *)

Definition pow2 (k : Z) : Q := 2 ^ k.

(** The exponent of a positive rational: [2 ^ ilog2 x <= x < 2 ^ (ilog2 x
    + 1)]. *)
Definition ilog2 (x : Q) : Z :=
  let e0 := (Z.log2 (Qnum x) - Z.log2 (Zpos (Qden x)))%Z in
  if Qle_bool (pow2 e0) x then e0 else (e0 - 1)%Z.

(** The nearest integer, a tie going to the even one. *)
Definition round_half_even (m : Q) : Z :=
  let f := Qfloor m in
  match Qcompare (m - inject_Z f) (1 # 2) with
  | Lt => f
  | Gt => (f + 1)%Z
  | Eq => if Z.even f then f else (f + 1)%Z
  end.

(** Round to nearest, ties to even, in the format with [prec] bits of
    precision and least normal exponent [emin] (subnormals below it).  No
    largest exponent: a result beyond the format's largest finite value
    stands for an overflow. *)
Definition round_to (prec emin : Z) (x : Q) : Q :=
  let x := Qred x in
  let a := Qabs x in
  if Qle_bool a 0 then 0
  else
    let q := Z.max (ilog2 a - prec + 1) (emin - prec + 1) in
    let y := inject_Z (round_half_even (a / pow2 q)) * pow2 q in
    Qred (if Qle_bool 0 x then y else - y).

(** binary64 and binary32. *)
Definition to_double : Q -> Q := round_to 53 (-1022).
Definition to_float : Q -> Q := round_to 24 (-126).

Arguments to_double x : simpl never.
Arguments to_float x : simpl never.

Definition DBL_MAX : Q := inject_Z ((2 ^ 53 - 1) * 2 ^ 971).
Definition FLT_MAX : Q := inject_Z ((2 ^ 24 - 1) * 2 ^ 104).

(** The value is within the finite doubles, the finite floats. *)
Definition double_range (x : Q) : Prop := Qabs x <= DBL_MAX.
Definition float_range (x : Q) : Prop := Qabs x <= FLT_MAX.

(** *** Integers *)

Definition INT_MIN : Z := -2147483648.
Definition INT_MAX : Z := 2147483647.

Definition int_range (z : Z) : Prop := (INT_MIN <= z <= INT_MAX)%Z.

(** The 32-bit two's complement value of [z]. *)
Definition wrap_int (z : Z) : Z := ((z - INT_MIN) mod 2 ^ 32 + INT_MIN)%Z.

(** The product of two [int]s. *)
Definition int_mul (a b : Z) : Z := wrap_int (a * b).

Arguments wrap_int z : simpl never.
Arguments int_mul a b : simpl never.

(** The implicit C++ conversion of a floating value to [int]: the fractional
    part is discarded.  C++ defines it only when the result is an [int]
    ([fits_int]). *)
Definition float_to_int (x : Q) : Z :=
  if Qle_bool 0 x then Qfloor x else Qceiling x.

Definition fits_int (x : Q) : Prop := int_range (float_to_int x).

(** Round to the nearest integer, ties away from zero. *)
Definition round_half_away (x : Q) : Z :=
  if Qle_bool 0 x then Qfloor (x + (1 # 2)) else Qceiling (x - (1 # 2)).

Definition clamp (x : Q) (lo hi : Z) : Q :=
  if Qltb (inject_Z hi) x then inject_Z hi
  else if Qltb x (inject_Z lo) then inject_Z lo
  else x.

(** ** Errors raised while a node is constructed *)

Inductive config_error : Type :=
| NonPositivePeriod
| InvertedBounds.

Inductive result (A : Type) : Type :=
| Ok (a : A)
| Err (e : config_error).

Arguments Ok {A} a.
Arguments Err {A} e.

Definition bind {A B : Type} (r : result A) (k : A -> result B) : result B :=
  match r with
  | Ok a => k a
  | Err e => Err e
  end.

Notation "x <- r ;; k" := (bind r (fun x => k))
  (at level 61, r at next level, right associativity).

(** ** The PID axis controller *)

Module PID.

Record PID : Type := mkPID {
  kp : Q;
  ki : Q;
  kd : Q;
  min_output : Z;
  max_output : Z;
  period : Q;
  bias : Z;
  integral : Q;
  previous_error : Q;
  previous_output : Q
}.

(** Modelled from the spec: [PID::calibrate] lives in pid.cpp, which is not
    among the sources; only its call sites are.  The spec (4.1, 7): it sets
    all tunable parameters and the fixed cycle period, resets the integral
    accumulator and the previous error and output to zero, and a
    non-positive cycle period or [min_output > max_output] is rejected at
    calibration time.  The callers pass the period as an integer number of
    milliseconds; the spec's worked scenario pairs the 80 ms default with
    a period of 0.08, so the stored period is in seconds.  Every field is
    overwritten, so the result does not depend on the receiver. *)
Definition calibrate (p_kp p_ki p_kd : Q) (p_min_output p_max_output : Z)
    (timer_period : Z) (p_bias : Z) : result PID :=
  if (timer_period <=? 0)%Z then Err NonPositivePeriod
  else if (p_max_output <? p_min_output)%Z then Err InvertedBounds
  else Ok {| kp := p_kp; ki := p_ki; kd := p_kd;
             min_output := p_min_output; max_output := p_max_output;
             period := inject_Z timer_period / 1000;
             bias := p_bias;
             integral := 0; previous_error := 0; previous_output := 0 |}.

(** Modelled from the spec: [PID::compute] lives in pid.cpp, which is not
    among the sources.  The spec (4.1), step by step: the error; the
    proportional term; the integral accumulated with [error * period],
    where the accumulation is dropped when the unclamped output leaves
    the bounds and the accumulation pushed the integral term further
    that way (anti-windup); the derivative term on the error difference;
    the raw output with the bias; the raw output clamped to the bounds and
    then rounded to the nearest integer, ties away from zero. *)
Definition compute (p : PID) (desired actual : Q) : Z * PID :=
  let error := desired - actual in
  let P := kp p * error in
  let accumulated := integral p + error * period p in
  let D := kd p * (error - previous_error p) / period p in
  let unclamped := P + ki p * accumulated + D + inject_Z (bias p) in
  let integral_sum :=
    if (Qltb (inject_Z (max_output p)) unclamped
        && Qltb (ki p * integral p) (ki p * accumulated))
       || (Qltb unclamped (inject_Z (min_output p))
           && Qltb (ki p * accumulated) (ki p * integral p))
    then integral p
    else accumulated in
  let I := ki p * integral_sum in
  let raw := P + I + D + inject_Z (bias p) in
  let output := round_half_away (clamp raw (min_output p) (max_output p)) in
  (output,
   {| kp := kp p; ki := ki p; kd := kd p;
      min_output := min_output p; max_output := max_output p;
      period := period p; bias := bias p;
      integral := integral_sum;
      previous_error := error;
      previous_output := inject_Z output |}).

(** The states a controller goes through after one calibration. *)
Inductive reachable (p0 : PID) : PID -> Prop :=
| reach_calibrated : reachable p0 p0
| reach_compute : forall p desired actual,
    reachable p0 p -> reachable p0 (snd (compute p desired actual)).

End PID.

(** ** Messages and effects *)

(** Modelled from the spec: the declaration of the [UCommand] message
    (frost_interfaces) is not among the sources.  The spec (6): three signed
    fin-position integers and one thruster integer, timestamped.  A
    default-constructed message holds zeros. *)
Record UCommand : Type := mkUCommand {
  stamp : Z;
  fin : list Z;
  thruster : Z
}.

Definition UCommand_default : UCommand := mkUCommand 0 [0; 0; 0]%Z 0.

Fixpoint update_nth (l : list Z) (i : nat) (v : Z) : list Z :=
  match l, i with
  | [], _ => []
  | _ :: r, O => v :: r
  | x :: r, S j => x :: update_nth r j v
  end.

Definition set_stamp (m : UCommand) (t : Z) : UCommand :=
  mkUCommand t (fin m) (thruster m).

(** [message.fin[i] = v] *)
Definition set_fin (m : UCommand) (i : nat) (v : Z) : UCommand :=
  mkUCommand (stamp m) (update_nth (fin m) i v) (thruster m).

Definition set_thruster (m : UCommand) (v : Z) : UCommand :=
  mkUCommand (stamp m) (fin m) v.

Definition fin_at (m : UCommand) (i : nat) : Z := nth i (fin m) 0%Z.

(** The two fields of a modem report the nodes read: [msg_id] is a [uint8],
    [attitude_yaw] an [int16] in tenths of a degree. *)
Record ModemRec : Type := mkModemRec {
  msg_id : Z;
  attitude_yaw : Z
}.

(** The field of a modem status report (seatrac_interfaces/msg/ModemStatus)
    the [coug_controls] node reads. *)
Record ModemStatus : Type := mkModemStatus {
  status_attitude_yaw : Z
}.

Inductive axis : Type := Depth | Heading | Velocity.

(** What a callback does to the outside, in order: the calls of
    [PID::compute] it makes (which controller, with which arguments) and the
    messages it publishes on [control_command]. *)
Inductive effect : Type :=
| Compute (a : axis) (desired actual : Q)
| Publish (m : UCommand).

Fixpoint published (effs : list effect) : list UCommand :=
  match effs with
  | [] => []
  | Publish m :: r => m :: published r
  | Compute _ _ _ :: r => published r
  end.

Fixpoint computes (effs : list effect) : list (axis * Q * Q) :=
  match effs with
  | [] => []
  | Compute a d x :: r => (a, d, x) :: computes r
  | Publish _ :: r => computes r
  end.

(** ** The [pid_control] node (cougars_cpp/src/pid_control.cpp) *)

Module PIDControl.

(** The declared ROS parameters. *)
Record Params : Type := mkParams {
  trim_ratio : Q;
  pid_timer_period : Z;
  depth_kp : Q; depth_ki : Q; depth_kd : Q;
  depth_min_output : Z; depth_max_output : Z; depth_bias : Z;
  heading_kp : Q; heading_ki : Q; heading_kd : Q;
  heading_min_output : Z; heading_max_output : Z; heading_bias : Z;
  speed_kp : Q; speed_ki : Q; speed_kd : Q;
  speed_min_output : Z; speed_max_output : Z; speed_bias : Z;
  top_fin_offset : Q;
  right_fin_offset : Q;
  left_fin_offset : Q
}.

(** The defaults of the [declare_parameter] calls. *)
Definition default_params : Params :=
  mkParams 0 80 0 0 0 0 0 0 0 0 0 0 0 0 0 0 0 0 0 0 0 0 0.

Record Node : Type := mkNode {
  params : Params;
  init_flag : bool;
  myHeadingPID : PID.PID;
  myDepthPID : PID.PID;
  myVelocityPID : PID.PID;
  desired_depth : Q;
  desired_heading : Q;
  desired_speed : Q;
  yaw : Q;
  x_velocity : Q;
  depth : Q
}.

(** The constructor: the three calibrations, in the order of the source;
    an error of a calibration leaves the constructor, so the publisher,
    the subscriptions and the timer after it are never created. *)
Definition new (ps : Params) : result Node :=
  d <- PID.calibrate (depth_kp ps) (depth_ki ps) (depth_kd ps)
         (depth_min_output ps) (depth_max_output ps)
         (pid_timer_period ps) (depth_bias ps) ;;
  h <- PID.calibrate (heading_kp ps) (heading_ki ps) (heading_kd ps)
         (heading_min_output ps) (heading_max_output ps)
         (pid_timer_period ps) (heading_bias ps) ;;
  v <- PID.calibrate (speed_kp ps) (speed_ki ps) (speed_kd ps)
         (speed_min_output ps) (speed_max_output ps)
         (pid_timer_period ps) (speed_bias ps) ;;
  Ok {| params := ps; init_flag := false;
        myHeadingPID := h; myDepthPID := d; myVelocityPID := v;
        desired_depth := 0; desired_heading := 0; desired_speed := 0;
        yaw := 0; x_velocity := 0; depth := 0 |}.

Definition init_callback (s : Node) : Node :=
  mkNode (params s) true (myHeadingPID s) (myDepthPID s) (myVelocityPID s)
    (desired_depth s) (desired_heading s) (desired_speed s)
    (yaw s) (x_velocity s) (depth s).

Definition desired_depth_callback (depth_msg : Q) (s : Node) : Node :=
  mkNode (params s) (init_flag s) (myHeadingPID s) (myDepthPID s)
    (myVelocityPID s)
    depth_msg (desired_heading s) (desired_speed s)
    (yaw s) (x_velocity s) (depth s).

Definition desired_heading_callback (heading_msg : Q) (s : Node) : Node :=
  mkNode (params s) (init_flag s) (myHeadingPID s) (myDepthPID s)
    (myVelocityPID s)
    (desired_depth s) heading_msg (desired_speed s)
    (yaw s) (x_velocity s) (depth s).

Definition desired_speed_callback (speed_msg : Q) (s : Node) : Node :=
  mkNode (params s) (init_flag s) (myHeadingPID s) (myDepthPID s)
    (myVelocityPID s)
    (desired_depth s) (desired_heading s) speed_msg
    (yaw s) (x_velocity s) (depth s).

(** [depth_msg] is [pose.pose.position.z] of the message, a [float64]; the
    member [depth] is a [float]. *)
Definition depth_callback (depth_msg : Q) (s : Node) : Node :=
  mkNode (params s) (init_flag s) (myHeadingPID s) (myDepthPID s)
    (myVelocityPID s)
    (desired_depth s) (desired_heading s) (desired_speed s)
    (yaw s) (x_velocity s) (to_float depth_msg).

Definition yaw_callback (yaw_msg : ModemRec) (s : Node) : Node :=
  if (msg_id yaw_msg =? 0x10)%Z then
    mkNode (params s) (init_flag s) (myHeadingPID s) (myDepthPID s)
      (myVelocityPID s)
      (desired_depth s) (desired_heading s) (desired_speed s)
      (inject_Z (attitude_yaw yaw_msg)) (x_velocity s) (depth s)
  else s.

(** The four assignments to the message in [timer_callback], as a function
    of the three local variables they read.  Each right-hand side is
    evaluated in [double]: the product, then the two sums from the left,
    each rounded; the assignment to the integer field converts the
    result. *)
Definition mix (ps : Params) (message : UCommand)
    (depth_pos heading_pos velocity_level : Z) : UCommand :=
  let message := set_fin message 0
    (float_to_int
       (to_double
          (to_double (inject_Z heading_pos
                      + to_double (trim_ratio ps * inject_Z velocity_level))
           + top_fin_offset ps))) in
  let message := set_fin message 1
    (float_to_int
       (to_double
          (to_double (inject_Z depth_pos
                      + to_double (trim_ratio ps * inject_Z velocity_level))
           + right_fin_offset ps))) in
  let message := set_fin message 2
    (float_to_int
       (to_double
          (to_double (inject_Z depth_pos
                      + to_double (trim_ratio ps * inject_Z velocity_level))
           + left_fin_offset ps))) in
  set_thruster message velocity_level.

(** [now] is the value of [this->now()].  The log line is left out. *)
Definition timer_callback (now : Z) (s : Node) : Node * list effect :=
  let message := set_stamp UCommand_default now in
  if init_flag s then
    let '(depth_pos, depthPID) :=
      PID.compute (myDepthPID s) (desired_depth s) (- depth s) in
    let '(heading_pos, headingPID) :=
      PID.compute (myHeadingPID s) (desired_heading s) (yaw s) in
    let velocity_level := float_to_int (desired_speed s) in
    let message :=
      mix (params s) message depth_pos heading_pos velocity_level in
    (mkNode (params s) (init_flag s) headingPID depthPID (myVelocityPID s)
       (desired_depth s) (desired_heading s) (desired_speed s)
       (yaw s) (x_velocity s) (depth s),
     [Compute Depth (desired_depth s) (- depth s);
      Compute Heading (desired_heading s) (yaw s);
      Publish message])
  else (s, []).

(** What the executor delivers to the node: a message on one of the
    subscribed topics, or a tick of the wall timer. *)
Inductive event : Type :=
| Init
| DesiredDepth (desired_depth : Q)
| DesiredHeading (desired_heading : Q)
| DesiredSpeed (desired_speed : Q)
| DepthData (z : Q)
| ModemRecMsg (m : ModemRec)
| Timer (now : Z).

Definition dispatch (s : Node) (e : event) : Node * list effect :=
  match e with
  | Init => (init_callback s, [])
  | DesiredDepth x => (desired_depth_callback x s, [])
  | DesiredHeading x => (desired_heading_callback x s, [])
  | DesiredSpeed x => (desired_speed_callback x s, [])
  | DepthData z => (depth_callback z s, [])
  | ModemRecMsg m => (yaw_callback m s, [])
  | Timer now => timer_callback now s
  end.

(** [rclcpp::spin]: the callbacks run one after the other. *)
Fixpoint spin (s : Node) (evs : list event) : Node * list effect :=
  match evs with
  | [] => (s, [])
  | e :: r =>
      let (s1, out1) := dispatch s e in
      let (s2, out2) := spin s1 r in
      (s2, out1 ++ out2)
  end.

(** [main]: construct the node, then spin it; a constructor that throws
    ends the process before [spin]. *)
Definition main (ps : Params) (evs : list event) : list effect :=
  match new ps with
  | Ok n => snd (spin n evs)
  | Err _ => []
  end.

(** The value of the latest message of a topic, [d] when there is none. *)
Fixpoint latest (sel : event -> option Q) (evs : list event) (d : Q) : Q :=
  match evs with
  | [] => d
  | e :: r => latest sel r (match sel e with Some x => x | None => d end)
  end.

Definition sel_desired_depth (e : event) : option Q :=
  match e with DesiredDepth x => Some x | _ => None end.
Definition sel_desired_heading (e : event) : option Q :=
  match e with DesiredHeading x => Some x | _ => None end.
Definition sel_desired_speed (e : event) : option Q :=
  match e with DesiredSpeed x => Some x | _ => None end.
Definition sel_depth (e : event) : option Q :=
  match e with DepthData x => Some (to_float x) | _ => None end.
Definition sel_yaw (e : event) : option Q :=
  match e with
  | ModemRecMsg m =>
      if (msg_id m =? 0x10)%Z then Some (inject_Z (attitude_yaw m)) else None
  | _ => None
  end.

End PIDControl.

(** ** The [coug_controls] node (cougars_control/src/coug_controls.cpp) *)

Module CougControls.

Record Params : Type := mkParams {
  timer_period : Z;
  depth_kp : Q; depth_ki : Q; depth_kd : Q;
  depth_min_output : Z; depth_max_output : Z; depth_bias : Z;
  heading_kp : Q; heading_ki : Q; heading_kd : Q;
  heading_min_output : Z; heading_max_output : Z; heading_bias : Z;
  param_magnetic_declination : Q
}.

Definition default_params : Params :=
  mkParams 80 0 0 0 0 0 0 0 0 0 0 0 0 (to_double (107 # 10)).

Record Node : Type := mkNode {
  params : Params;
  init_flag : bool;
  myHeadingPID : PID.PID;
  myDepthPID : PID.PID;
  magnetic_declination : Q;
  desired_depth : Q;
  desired_heading : Q;
  desired_speed : Q;
  actual_depth : Q;
  actual_heading : Q
}.

Definition new (ps : Params) : result Node :=
  d <- PID.calibrate (depth_kp ps) (depth_ki ps) (depth_kd ps)
         (depth_min_output ps) (depth_max_output ps)
         (timer_period ps) (depth_bias ps) ;;
  h <- PID.calibrate (heading_kp ps) (heading_ki ps) (heading_kd ps)
         (heading_min_output ps) (heading_max_output ps)
         (timer_period ps) (heading_bias ps) ;;
  Ok {| params := ps; init_flag := false;
        myHeadingPID := h; myDepthPID := d;
        magnetic_declination := param_magnetic_declination ps;
        desired_depth := 0; desired_heading := 0; desired_speed := 0;
        actual_depth := 0; actual_heading := 0 |}.

Definition init_callback (s : Node) : Node :=
  mkNode (params s) true (myHeadingPID s) (myDepthPID s)
    (magnetic_declination s)
    (desired_depth s) (desired_heading s) (desired_speed s)
    (actual_depth s) (actual_heading s).

Definition desired_depth_callback (depth_msg : Q) (s : Node) : Node :=
  mkNode (params s) (init_flag s) (myHeadingPID s) (myDepthPID s)
    (magnetic_declination s)
    depth_msg (desired_heading s) (desired_speed s)
    (actual_depth s) (actual_heading s).

Definition desired_heading_callback (heading_msg : Q) (s : Node) : Node :=
  mkNode (params s) (init_flag s) (myHeadingPID s) (myDepthPID s)
    (magnetic_declination s)
    (desired_depth s) heading_msg (desired_speed s)
    (actual_depth s) (actual_heading s).

Definition desired_speed_callback (speed_msg : Q) (s : Node) : Node :=
  mkNode (params s) (init_flag s) (myHeadingPID s) (myDepthPID s)
    (magnetic_declination s)
    (desired_depth s) (desired_heading s) speed_msg
    (actual_depth s) (actual_heading s).

(** [depth_msg] is [pose.pose.position.z], a [float64]; the member
    [actual_depth] is a [float]. *)
Definition actual_depth_callback (depth_msg : Q) (s : Node) : Node :=
  mkNode (params s) (init_flag s) (myHeadingPID s) (myDepthPID s)
    (magnetic_declination s)
    (desired_depth s) (desired_heading s) (desired_speed s)
    (to_float depth_msg) (actual_heading s).

(** [0.1 * attitude_yaw + magnetic_declination]: the literal is the double
    nearest to one tenth, the product and the sum are [double] operations,
    and the member [actual_heading] is a [float]. *)
Definition actual_heading_callback (heading_msg : ModemStatus) (s : Node)
    : Node :=
  mkNode (params s) (init_flag s) (myHeadingPID s) (myDepthPID s)
    (magnetic_declination s)
    (desired_depth s) (desired_heading s) (desired_speed s)
    (actual_depth s)
    (to_float
       (to_double
          (to_double (to_double (1 # 10)
                      * inject_Z (status_attitude_yaw heading_msg))
           + magnetic_declination s))).

(** The four assignments to the message in [timer_callback]; the right fin
    is a product of [int]s; the thruster takes the [float] field
    [desired_speed], converted. *)
Definition mix (message : UCommand) (depth_pos heading_pos : Z)
    (speed : Q) : UCommand :=
  let message := set_fin message 0 heading_pos in
  let message := set_fin message 1 (int_mul (-1) depth_pos) in
  let message := set_fin message 2 depth_pos in
  set_thruster message (float_to_int speed).

Definition timer_callback (now : Z) (s : Node) : Node * list effect :=
  let message := set_stamp UCommand_default now in
  if init_flag s then
    let '(depth_pos, depthPID) :=
      PID.compute (myDepthPID s) (desired_depth s) (- actual_depth s) in
    let '(heading_pos, headingPID) :=
      PID.compute (myHeadingPID s) (desired_heading s) (actual_heading s) in
    let message := mix message depth_pos heading_pos (desired_speed s) in
    (mkNode (params s) (init_flag s) headingPID depthPID
       (magnetic_declination s)
       (desired_depth s) (desired_heading s) (desired_speed s)
       (actual_depth s) (actual_heading s),
     [Compute Depth (desired_depth s) (- actual_depth s);
      Compute Heading (desired_heading s) (actual_heading s);
      Publish message])
  else (s, []).

Inductive event : Type :=
| Init
| DesiredDepth (desired_depth : Q)
| DesiredHeading (desired_heading : Q)
| DesiredSpeed (desired_speed : Q)
| DepthData (z : Q)
| ModemStatusMsg (m : ModemStatus)
| Timer (now : Z).

Definition dispatch (s : Node) (e : event) : Node * list effect :=
  match e with
  | Init => (init_callback s, [])
  | DesiredDepth x => (desired_depth_callback x s, [])
  | DesiredHeading x => (desired_heading_callback x s, [])
  | DesiredSpeed x => (desired_speed_callback x s, [])
  | DepthData z => (actual_depth_callback z s, [])
  | ModemStatusMsg m => (actual_heading_callback m s, [])
  | Timer now => timer_callback now s
  end.

Fixpoint spin (s : Node) (evs : list event) : Node * list effect :=
  match evs with
  | [] => (s, [])
  | e :: r =>
      let (s1, out1) := dispatch s e in
      let (s2, out2) := spin s1 r in
      (s2, out1 ++ out2)
  end.

Definition main (ps : Params) (evs : list event) : list effect :=
  match new ps with
  | Ok n => snd (spin n evs)
  | Err _ => []
  end.

Fixpoint latest (sel : event -> option Q) (evs : list event) (d : Q) : Q :=
  match evs with
  | [] => d
  | e :: r => latest sel r (match sel e with Some x => x | None => d end)
  end.

Definition sel_desired_depth (e : event) : option Q :=
  match e with DesiredDepth x => Some x | _ => None end.
Definition sel_desired_heading (e : event) : option Q :=
  match e with DesiredHeading x => Some x | _ => None end.
Definition sel_desired_speed (e : event) : option Q :=
  match e with DesiredSpeed x => Some x | _ => None end.
Definition sel_depth (e : event) : option Q :=
  match e with DepthData x => Some (to_float x) | _ => None end.
Definition sel_heading (decl : Q) (e : event) : option Q :=
  match e with
  | ModemStatusMsg m =>
      Some (to_float
              (to_double
                 (to_double (to_double (1 # 10)
                             * inject_Z (status_attitude_yaw m))
                  + decl)))
  | _ => None
  end.

End CougControls.

(** ** Sample configurations and inputs *)

Definition sample_pid : PID.PID :=
  PID.mkPID 2 0 0 (-100) 100 (inject_Z 80 / 1000) 0 0 0 0.

Definition pid_sample_params : PIDControl.Params :=
  PIDControl.mkParams 0 80 2 0 0 (-100) 100 0 2 0 0 (-100) 100 0
    2 0 0 (-100) 100 0 0 0 0.

Definition pid_sample_node : PIDControl.Node :=
  PIDControl.mkNode pid_sample_params false sample_pid sample_pid sample_pid
    0 0 0 0 0 0.

Definition pid_sample_events : list PIDControl.event :=
  [PIDControl.DesiredDepth 5; PIDControl.DepthData (-3);
   PIDControl.DesiredSpeed (25 # 2); PIDControl.Init].

(** A depth of one tenth, as the double the message carries. *)
Definition pid_tenth_events : list PIDControl.event :=
  [PIDControl.DesiredDepth 5; PIDControl.DepthData (to_double (1 # 10));
   PIDControl.Init].

Definition coug_sample_params : CougControls.Params :=
  CougControls.mkParams 80 2 0 0 (-100) 100 0 2 0 0 (-100) 100 0
    (to_double (107 # 10)).

Definition coug_sample_node : CougControls.Node :=
  CougControls.mkNode coug_sample_params false sample_pid sample_pid
    (to_double (107 # 10)) 0 0 0 0 0.

Definition coug_sample_events : list CougControls.event :=
  [CougControls.DesiredDepth 5; CougControls.DepthData (-3);
   CougControls.DesiredSpeed (25 # 2); CougControls.Init].

Definition pid_period_zero_params : PIDControl.Params :=
  PIDControl.mkParams 0 0 2 0 0 (-100) 100 0 2 0 0 (-100) 100 0
    2 0 0 (-100) 100 0 0 0 0.

Definition pid_half_trim_params : PIDControl.Params :=
  PIDControl.mkParams (1 # 2) 80 2 0 0 (-100) 100 0 2 0 0 (-100) 100 0
    2 0 0 (-100) 100 0 0 0 0.

Definition pid_half_trim_node : PIDControl.Node :=
  PIDControl.mkNode pid_half_trim_params false sample_pid sample_pid sample_pid
    0 0 0 0 0 0.

(** ** The mixing law and affinity, as predicates on what the code yields *)

(** The mixing law for one published command [m]: the three fin values
    against the axis outputs, the speed value, the trim ratio, the fin
    offsets and the two depth-fin signs. *)
Definition mixing_law (sign_r sign_l : Z) (trim top right left : Q)
    (depth_output heading_output speed_value : Z) (m : UCommand) : Prop :=
  inject_Z (fin_at m 0) ==
    inject_Z heading_output + trim * inject_Z speed_value + top
  /\ inject_Z (fin_at m 1) ==
       inject_Z sign_r * inject_Z depth_output
       + trim * inject_Z speed_value + right
  /\ inject_Z (fin_at m 2) ==
       inject_Z sign_l * inject_Z depth_output
       + trim * inject_Z speed_value + left.

(** An integer function of three integers that is exactly affine. *)
Definition affine3 (f : Z -> Z -> Z -> Z) : Prop :=
  exists a b c k : Q, forall x y z : Z,
    inject_Z (f x y z) == a * inject_Z x + b * inject_Z y + c * inject_Z z + k.

(** ** Views of a run *)

(** The times of the ticks delivered while the flag is set: [running] is the
    flag at the start of the events. *)
Fixpoint pid_ticks_when (running : bool) (evs : list PIDControl.event)
    : list Z :=
  match evs with
  | [] => []
  | PIDControl.Init :: r => pid_ticks_when true r
  | PIDControl.Timer now :: r =>
      if running then now :: pid_ticks_when running r
      else pid_ticks_when running r
  | _ :: r => pid_ticks_when running r
  end.

Fixpoint coug_ticks_when (running : bool) (evs : list CougControls.event)
    : list Z :=
  match evs with
  | [] => []
  | CougControls.Init :: r => coug_ticks_when true r
  | CougControls.Timer now :: r =>
      if running then now :: coug_ticks_when running r
      else coug_ticks_when running r
  | _ :: r => coug_ticks_when running r
  end.

Definition pid_is_init (e : PIDControl.event) : bool :=
  match e with PIDControl.Init => true | _ => false end.

Definition coug_is_init (e : CougControls.event) : bool :=
  match e with CougControls.Init => true | _ => false end.

Definition pid_is_timer (e : PIDControl.event) : bool :=
  match e with PIDControl.Timer _ => true | _ => false end.

Definition coug_is_timer (e : CougControls.event) : bool :=
  match e with CougControls.Timer _ => true | _ => false end.

(** A modem report that [yaw_callback] reads: one with the status code. *)
Definition pid_is_read (e : PIDControl.event) : bool :=
  match e with
  | PIDControl.ModemRecMsg m => (msg_id m =? 0x10)%Z
  | _ => true
  end.

(** The messages of the depth axis and of the heading axis. *)
Definition pid_is_depth_input (e : PIDControl.event) : bool :=
  match e with
  | PIDControl.DesiredDepth _ | PIDControl.DepthData _ => true
  | _ => false
  end.

Definition pid_is_heading_input (e : PIDControl.event) : bool :=
  match e with
  | PIDControl.DesiredHeading _ | PIDControl.ModemRecMsg _ => true
  | _ => false
  end.

Definition coug_is_depth_input (e : CougControls.event) : bool :=
  match e with
  | CougControls.DesiredDepth _ | CougControls.DepthData _ => true
  | _ => false
  end.

Definition coug_is_heading_input (e : CougControls.event) : bool :=
  match e with
  | CougControls.DesiredHeading _ | CougControls.ModemStatusMsg _ => true
  | _ => false
  end.

(** What the callbacks other than the tick write: the parameters, the flag
    and the stored setpoints and measurements. *)
Definition pid_inputs (s : PIDControl.Node) :=
  (PIDControl.params s, PIDControl.init_flag s,
   PIDControl.desired_depth s, PIDControl.desired_heading s,
   PIDControl.desired_speed s, PIDControl.yaw s, PIDControl.x_velocity s,
   PIDControl.depth s).

Definition coug_inputs (s : CougControls.Node) :=
  (CougControls.params s, CougControls.init_flag s,
   CougControls.magnetic_declination s,
   CougControls.desired_depth s, CougControls.desired_heading s,
   CougControls.desired_speed s, CougControls.actual_depth s,
   CougControls.actual_heading s).

(** What the heading channel of a tick reads, and what the depth channel
    reads. *)
Definition pid_heading_side (s : PIDControl.Node) :=
  (PIDControl.params s, PIDControl.init_flag s, PIDControl.myHeadingPID s,
   PIDControl.desired_heading s, PIDControl.desired_speed s, PIDControl.yaw s).

Definition pid_depth_side (s : PIDControl.Node) :=
  (PIDControl.params s, PIDControl.init_flag s, PIDControl.myDepthPID s,
   PIDControl.desired_depth s, PIDControl.desired_speed s, PIDControl.depth s).

Definition coug_heading_side (s : CougControls.Node) :=
  (CougControls.init_flag s, CougControls.myHeadingPID s,
   CougControls.magnetic_declination s,
   CougControls.desired_heading s, CougControls.desired_speed s,
   CougControls.actual_heading s).

Definition coug_depth_side (s : CougControls.Node) :=
  (CougControls.init_flag s, CougControls.myDepthPID s,
   CougControls.desired_depth s, CougControls.desired_speed s,
   CougControls.actual_depth s).

(** The parts of a command: the stamp, the top fin and the thruster; the
    stamp and the two depth fins. *)
Definition top_part (m : UCommand) := (stamp m, fin_at m 0, thruster m).

Definition depth_part (m : UCommand) := (stamp m, fin_at m 1, fin_at m 2).

(** The topic (or the timer) an event comes from. *)
Inductive source : Type :=
| FromInit | FromDesiredDepth | FromDesiredHeading | FromDesiredSpeed
| FromDepthData | FromModem | FromTimer.

Definition pid_source (e : PIDControl.event) : source :=
  match e with
  | PIDControl.Init => FromInit
  | PIDControl.DesiredDepth _ => FromDesiredDepth
  | PIDControl.DesiredHeading _ => FromDesiredHeading
  | PIDControl.DesiredSpeed _ => FromDesiredSpeed
  | PIDControl.DepthData _ => FromDepthData
  | PIDControl.ModemRecMsg _ => FromModem
  | PIDControl.Timer _ => FromTimer
  end.

Definition coug_source (e : CougControls.event) : source :=
  match e with
  | CougControls.Init => FromInit
  | CougControls.DesiredDepth _ => FromDesiredDepth
  | CougControls.DesiredHeading _ => FromDesiredHeading
  | CougControls.DesiredSpeed _ => FromDesiredSpeed
  | CougControls.DepthData _ => FromDepthData
  | CougControls.ModemStatusMsg _ => FromModem
  | CougControls.Timer _ => FromTimer
  end.

(** ** When the arithmetic of a callback is defined *)

(** The evaluation of one fin of [pid_control] stays within the finite
    doubles and its result converts to [int]. *)
Definition pid_fin_defined (trim : Q) (pos v : Z) (off : Q) : Prop :=
  double_range (trim * inject_Z v)
  /\ double_range (inject_Z pos + to_double (trim * inject_Z v))
  /\ double_range
       (to_double (inject_Z pos + to_double (trim * inject_Z v)) + off)
  /\ fits_int
       (to_double
          (to_double (inject_Z pos + to_double (trim * inject_Z v)) + off)).

(** The conversions and evaluations of a [pid_control] tick with depth
    output [d], heading output [h] and stored speed [sp] are defined. *)
Definition pid_mix_defined (ps : PIDControl.Params) (d h : Z) (sp : Q)
    : Prop :=
  fits_int sp /\ int_range d /\ int_range h
  /\ pid_fin_defined (PIDControl.trim_ratio ps) h (float_to_int sp)
       (PIDControl.top_fin_offset ps)
  /\ pid_fin_defined (PIDControl.trim_ratio ps) d (float_to_int sp)
       (PIDControl.right_fin_offset ps)
  /\ pid_fin_defined (PIDControl.trim_ratio ps) d (float_to_int sp)
       (PIDControl.left_fin_offset ps).

(** The same for a [coug_controls] tick: the speed converts, the outputs
    are [int]s and the negation of the depth output does not overflow. *)
Definition coug_mix_defined (d h : Z) (sp : Q) : Prop :=
  fits_int sp /\ int_range d /\ int_range h /\ int_range (-1 * d).

(** The yaw field is an [int16] and the evaluation of the heading stays
    finite. *)
Definition heading_defined (decl : Q) (yaw : Z) : Prop :=
  (-32768 <= yaw <= 32767)%Z
  /\ double_range (to_double (1 # 10) * inject_Z yaw)
  /\ double_range (to_double (to_double (1 # 10) * inject_Z yaw) + decl)
  /\ float_range
       (to_double (to_double (to_double (1 # 10) * inject_Z yaw) + decl)).

(** The values a message carries can be stored: the depth fits a [float],
    the yaw field is an [int16], the heading of a status report is
    defined. *)
Definition pid_event_in_range (e : PIDControl.event) : Prop :=
  match e with
  | PIDControl.DepthData z => float_range z
  | PIDControl.ModemRecMsg m => (-32768 <= attitude_yaw m <= 32767)%Z
  | _ => True
  end.

Definition coug_event_in_range (decl : Q) (e : CougControls.event) : Prop :=
  match e with
  | CougControls.DepthData z => float_range z
  | CougControls.ModemStatusMsg m =>
      heading_defined decl (status_attitude_yaw m)
  | _ => True
  end.

(** ** Facts on the conversions *)

Lemma Qltb_lt (x y : Q) : Qltb x y = true <-> x < y.
Proof.
  unfold Qltb. rewrite negb_true_iff.
  destruct (Qle_bool y x) eqn:E.
  - apply Qle_bool_iff in E. split; [discriminate | intro H; lra].
  - split; [intros _ | reflexivity].
    apply Qnot_le_lt. intro H. apply Qle_bool_iff in H. congruence.
Qed.

Lemma Qltb_ge (x y : Q) : Qltb x y = false <-> y <= x.
Proof.
  unfold Qltb. rewrite negb_false_iff. apply Qle_bool_iff.
Qed.

Lemma clamp_bounds (x : Q) (lo hi : Z) :
  (lo <= hi)%Z -> inject_Z lo <= clamp x lo hi <= inject_Z hi.
Proof.
  intro Hb. assert (Hq : inject_Z lo <= inject_Z hi) by (now rewrite <- Zle_Qle).
  unfold clamp.
  destruct (Qltb (inject_Z hi) x) eqn:E1.
  - split; [exact Hq | apply Qle_refl].
  - apply Qltb_ge in E1.
    destruct (Qltb x (inject_Z lo)) eqn:E2.
    + split; [apply Qle_refl | exact Hq].
    + apply Qltb_ge in E2. split; assumption.
Qed.

Lemma round_half_away_lower (x : Q) (lo : Z) :
  inject_Z lo <= x -> (lo <= round_half_away x)%Z.
Proof.
  intro H. unfold round_half_away.
  destruct (Qle_bool 0 x).
  - rewrite <- (Qfloor_Z lo). apply Qfloor_resp_le. lra.
  - rewrite Zle_Qle.
    pose proof (Qle_ceiling (x - (1 # 2))) as Hc.
    destruct (Z_le_gt_dec lo (Qceiling (x - (1 # 2)))) as [Hle | Hgt].
    + now rewrite <- Zle_Qle.
    + exfalso.
      assert (Hz : (Qceiling (x - (1 # 2)) + 1 <= lo)%Z) by lia.
      rewrite Zle_Qle, inject_Z_plus in Hz.
      change (inject_Z 1) with 1 in Hz.
      pose proof (Qceiling_lt (x - (1 # 2))) as Hl.
      unfold Z.sub in Hl. rewrite inject_Z_plus, inject_Z_opp in Hl.
      change (inject_Z 1) with 1 in Hl.
      lra.
Qed.

Lemma round_half_away_upper (x : Q) (hi : Z) :
  x <= inject_Z hi -> (round_half_away x <= hi)%Z.
Proof.
  intro H. unfold round_half_away.
  destruct (Qle_bool 0 x).
  - destruct (Z_le_gt_dec (Qfloor (x + (1 # 2))) hi) as [Hle | Hgt]; [exact Hle |].
    exfalso.
    assert (Hz : (hi + 1 <= Qfloor (x + (1 # 2)))%Z) by lia.
    rewrite Zle_Qle, inject_Z_plus in Hz.
    change (inject_Z 1) with 1 in Hz.
    pose proof (Qfloor_le (x + (1 # 2))) as Hl.
    lra.
  - rewrite <- (Qceiling_Z hi). apply Qceiling_resp_le. lra.
Qed.

Lemma round_half_away_Z (z : Z) : round_half_away (inject_Z z) = z.
Proof.
  apply Z.le_antisymm.
  - apply round_half_away_upper, Qle_refl.
  - apply round_half_away_lower, Qle_refl.
Qed.

(** ** Facts on the roundings *)

Lemma pow2_pos (k : Z) : 0 < pow2 k.
Proof. apply Qpower_0_lt. reflexivity. Qed.

Lemma pow2_add (a b : Z) : pow2 (a + b) == pow2 a * pow2 b.
Proof. apply Qpower_plus. discriminate. Qed.

Lemma pow2_Z (k : Z) : (0 <= k)%Z -> pow2 k == inject_Z (2 ^ k).
Proof.
  intro H. unfold pow2. rewrite Zpower_Qpower by exact H. reflexivity.
Qed.

Lemma pow2_le (a b : Z) : (a <= b)%Z -> pow2 a <= pow2 b.
Proof. intro H. apply Qpower_le_compat_l; [exact H | discriminate]. Qed.

Lemma pow2_nonzero (k : Z) : ~ pow2 k == 0.
Proof. intro H. pose proof (pow2_pos k) as P. rewrite H in P. discriminate. Qed.

Lemma ilog2_le (x : Q) : 0 < x -> pow2 (ilog2 x) <= x.
Proof.
  intro Hx. unfold ilog2.
  set (n := Qnum x). set (d := Zpos (Qden x)).
  destruct (Qle_bool (pow2 (Z.log2 n - Z.log2 d)) x) eqn:E.
  - apply Qle_bool_iff. exact E.
  - clear E.
    assert (Hn : (0 < n)%Z).
    { unfold n. destruct x as [xn xd]. unfold Qlt in Hx. cbn in *. lia. }
    assert (Hd : (0 < d)%Z) by (unfold d; lia).
    destruct (Z.log2_spec n Hn) as [Hn1 _].
    destruct (Z.log2_spec d Hd) as [_ Hd2].
    pose proof (Z.log2_nonneg n) as Hln.
    pose proof (Z.log2_nonneg d) as Hld.
    replace (Z.log2 n - Z.log2 d - 1)%Z
      with (Z.log2 n + - (Z.succ (Z.log2 d)))%Z by lia.
    rewrite pow2_add. unfold pow2 at 2. rewrite Qpower_opp.
    fold (pow2 (Z.succ (Z.log2 d))).
    rewrite !pow2_Z by lia.
    assert (Ex : x == inject_Z n / inject_Z d).
    { destruct x as [xn xd]. apply Qmake_Qdiv. }
    rewrite Ex.
    assert (Hdq : 0 < inject_Z d).
    { change 0 with (inject_Z 0). rewrite <- Zlt_Qlt. exact Hd. }
    assert (Hpq : 0 < inject_Z (2 ^ Z.succ (Z.log2 d))).
    { change 0 with (inject_Z 0). rewrite <- Zlt_Qlt. lia. }
    apply Qle_shift_div_l; [exact Hdq |].
    unfold Qdiv.
    setoid_replace
      (inject_Z (2 ^ Z.log2 n) * / inject_Z (2 ^ Z.succ (Z.log2 d))
       * inject_Z d)
      with ((inject_Z (2 ^ Z.log2 n) * inject_Z d)
            / inject_Z (2 ^ Z.succ (Z.log2 d)))
      by (field; intro H0; rewrite H0 in Hpq; discriminate).
    apply Qle_shift_div_r; [exact Hpq |].
    rewrite <- !inject_Z_mult, <- Zle_Qle.
    nia.
Qed.

Lemma round_half_even_error (m : Q) :
  Qabs (inject_Z (round_half_even m) - m) <= 1 # 2.
Proof.
  unfold round_half_even.
  pose proof (Qfloor_le m) as Hl. pose proof (Qlt_floor m) as Hu.
  rewrite inject_Z_plus in Hu. change (inject_Z 1) with 1 in Hu.
  apply Qabs_Qle_condition.
  destruct (Qcompare_spec (m - inject_Z (Qfloor m)) (1 # 2)) as [E | E | E].
  - destruct (Z.even (Qfloor m)).
    + split; lra.
    + rewrite inject_Z_plus. change (inject_Z 1) with 1. split; lra.
  - split; lra.
  - rewrite inject_Z_plus. change (inject_Z 1) with 1. split; lra.
Qed.

Lemma round_half_even_Z (k : Z) (m : Q) :
  m == inject_Z k -> round_half_even m = k.
Proof.
  intro E. unfold round_half_even.
  rewrite (Qfloor_comp _ _ E), Qfloor_Z.
  rewrite (Qcompare_comp (m - inject_Z k) 0 ltac:(rewrite E; ring)
             (1 # 2) (1 # 2) (Qeq_refl _)).
  reflexivity.
Qed.

Lemma round_to_comp (prec emin : Z) (x y : Q) :
  x == y -> round_to prec emin x = round_to prec emin y.
Proof.
  intro E. unfold round_to. rewrite (Qred_complete _ _ E). reflexivity.
Qed.

(** The rounding error: relative [2 ^ - prec], or half the spacing of the
    subnormals. *)
Lemma round_to_error (prec emin : Z) (x : Q) :
  Qabs (round_to prec emin x - x)
  <= Qabs x * pow2 (- prec) + pow2 (emin - prec).
Proof.
  pose proof (pow2_pos (- prec)) as Hp1.
  pose proof (pow2_pos (emin - prec)) as Hp2.
  pose proof (Qabs_nonneg x) as Hax.
  unfold round_to.
  assert (Er : Qred x == x) by apply Qred_correct.
  set (x' := Qred x) in *.
  destruct (Qle_bool (Qabs x') 0) eqn:E0.
  - apply Qle_bool_iff in E0.
    assert (Hz : Qabs x == 0).
    { rewrite <- Er. pose proof (Qabs_nonneg x'). lra. }
    assert (Hx0 : x == 0).
    { destruct (Qabs_Qle_condition x 0) as [H _].
      destruct H as [H1 H2]; [rewrite Hz; apply Qle_refl |]. lra. }
    rewrite Hx0.
    setoid_replace (0 - 0) with 0 by ring.
    change (Qabs 0) with 0.
    nra.
  - assert (Ha : 0 < Qabs x').
    { apply Qnot_le_lt. intro H. apply Qle_bool_iff in H. congruence. }
    set (a := Qabs x') in *.
    set (q := Z.max (ilog2 a - prec + 1) (emin - prec + 1)).
    pose proof (pow2_pos q) as Hq.
    pose proof (round_half_even_error (a / pow2 q)) as Hr.
    set (r := round_half_even (a / pow2 q)) in *.
    assert (Hra : Qabs (inject_Z r * pow2 q - a) <= pow2 q * (1 # 2)).
    { setoid_replace (inject_Z r * pow2 q - a)
        with ((inject_Z r - a / pow2 q) * pow2 q)
        by (field; apply pow2_nonzero).
      rewrite Qabs_Qmult, (Qabs_pos (pow2 q)) by lra.
      rewrite (Qmult_comm (pow2 q)).
      apply Qmult_le_compat_r; [exact Hr | lra]. }
    assert (Hb : pow2 q * (1 # 2)
                 <= a * pow2 (- prec) + pow2 (emin - prec)).
    { unfold q.
      destruct (Z.max_spec (ilog2 a - prec + 1) (emin - prec + 1))
        as [[_ ->] | [_ ->]].
      - replace (emin - prec + 1)%Z with ((emin - prec) + 1)%Z by lia.
        rewrite pow2_add. change (pow2 1) with 2.
        assert (0 <= a * pow2 (- prec)) by (apply Qmult_le_0_compat; lra).
        lra.
      - replace (ilog2 a - prec + 1)%Z with (ilog2 a + (- prec + 1))%Z
          by lia.
        rewrite !pow2_add. change (pow2 1) with 2.
        pose proof (ilog2_le a Ha) as Hl.
        assert (pow2 (ilog2 a) * pow2 (- prec) <= a * pow2 (- prec))
          by (apply Qmult_le_compat_r; lra).
        setoid_replace (pow2 (ilog2 a) * (pow2 (- prec) * 2) * (1 # 2))
          with (pow2 (ilog2 a) * pow2 (- prec)) by ring.
        lra. }
    rewrite Qred_correct.
    assert (Eax : Qabs x == a) by (unfold a; rewrite Er; reflexivity).
    rewrite Eax.
    destruct (Qle_bool 0 x') eqn:Es.
    + apply Qle_bool_iff in Es.
      assert (Exa : x == a).
      { rewrite <- Er. unfold a. rewrite Qabs_pos by exact Es. reflexivity. }
      rewrite Exa. lra.
    + assert (Hneg : x' < 0).
      { apply Qnot_le_lt. intro H. apply Qle_bool_iff in H. congruence. }
      assert (Exa : x == - a).
      { rewrite <- Er. unfold a. rewrite Qabs_neg by lra. ring. }
      rewrite Exa.
      setoid_replace (- (inject_Z r * pow2 q) - - a)
        with (- (inject_Z r * pow2 q - a)) by ring.
      rewrite Qabs_opp. lra.
Qed.

(** An integer below [2 ^ prec] in magnitude is a value of the format. *)
Lemma round_to_Z (prec emin z : Z) :
  (emin - prec + 1 <= 0)%Z -> (Z.abs z < 2 ^ prec)%Z -> (0 <= prec)%Z ->
  round_to prec emin (inject_Z z) == inject_Z z.
Proof.
  intros Hemin Hz Hprec. unfold round_to.
  assert (Er : Qred (inject_Z z) == inject_Z z) by apply Qred_correct.
  set (x' := Qred (inject_Z z)) in *.
  assert (Ea : Qabs x' == inject_Z (Z.abs z)).
  { rewrite Er. reflexivity. }
  destruct (Qle_bool (Qabs x') 0) eqn:E0.
  - apply Qle_bool_iff in E0. rewrite Ea in E0.
    change 0 with (inject_Z 0) in E0. rewrite <- Zle_Qle in E0.
    assert (z = 0%Z) by lia. subst z. reflexivity.
  - assert (Ha : 0 < Qabs x').
    { apply Qnot_le_lt. intro H. apply Qle_bool_iff in H. congruence. }
    set (a := Qabs x') in *.
    pose proof (ilog2_le a Ha) as Hl.
    assert (He : (ilog2 a < prec)%Z).
    { apply (Qpower_lt_compat_l_inv 2); [| reflexivity].
      fold (pow2 (ilog2 a)). fold (pow2 prec).
      eapply Qle_lt_trans; [exact Hl |].
      rewrite Ea, pow2_Z by exact Hprec. rewrite <- Zlt_Qlt. exact Hz. }
    set (q := Z.max (ilog2 a - prec + 1) (emin - prec + 1)).
    assert (Hq : (q <= 0)%Z) by (unfold q; lia).
    assert (Em : a / pow2 q == inject_Z (Z.abs z * 2 ^ (- q))).
    { rewrite inject_Z_mult, <- pow2_Z by lia. rewrite Ea.
      unfold pow2 at 2. rewrite Qpower_opp. fold (pow2 q).
      field. apply pow2_nonzero. }
    rewrite (round_half_even_Z _ _ Em).
    rewrite Qred_correct.
    assert (Ey : inject_Z (Z.abs z * 2 ^ (- q)) * pow2 q
                 == inject_Z (Z.abs z)).
    { rewrite inject_Z_mult, <- pow2_Z by lia.
      unfold pow2 at 1. rewrite Qpower_opp. fold (pow2 q).
      field. apply pow2_nonzero. }
    destruct (Qle_bool 0 x') eqn:Es; rewrite Ey.
    + apply Qle_bool_iff in Es. rewrite Er in Es.
      change 0 with (inject_Z 0) in Es. rewrite <- Zle_Qle in Es.
      rewrite Z.abs_eq by exact Es. reflexivity.
    + assert (Hneg : x' < 0).
      { apply Qnot_le_lt. intro H. apply Qle_bool_iff in H. congruence. }
      rewrite Er in Hneg. change 0 with (inject_Z 0) in Hneg.
      rewrite <- Zlt_Qlt in Hneg.
      rewrite Z.abs_neq by lia. rewrite inject_Z_opp. ring.
Qed.

Lemma to_double_comp (x y : Q) : x == y -> to_double x = to_double y.
Proof. apply round_to_comp. Qed.

Lemma to_double_error (x : Q) :
  Qabs (to_double x - x) <= Qabs x * pow2 (-53) + pow2 (-200).
Proof.
  eapply Qle_trans; [apply round_to_error |].
  apply Qplus_le_compat; [apply Qle_refl | apply pow2_le; lia].
Qed.

Lemma to_float_error (x : Q) :
  Qabs (to_float x - x) <= Qabs x * pow2 (-24) + pow2 (-150).
Proof. apply (round_to_error 24 (-126) x). Qed.

Lemma to_double_Z (z : Z) :
  (Z.abs z < 2 ^ 53)%Z -> to_double (inject_Z z) == inject_Z z.
Proof. intro H. apply round_to_Z; [lia | exact H | lia]. Qed.

Lemma Qabs_diff_triangle (x y z : Q) :
  Qabs (x - z) <= Qabs (x - y) + Qabs (y - z).
Proof.
  setoid_replace (x - z) with ((x - y) + (y - z)) by ring.
  apply Qabs_triangle.
Qed.

(** Replace every power of two by its value, for linear arithmetic. *)
Ltac pow2_values :=
  repeat match goal with
  | H : context [pow2 ?k] |- _ =>
      let v := eval vm_compute in (pow2 k) in change (pow2 k) with v in H
  | |- context [pow2 ?k] =>
      let v := eval vm_compute in (pow2 k) in change (pow2 k) with v
  end.

(** The stored heading against the exact one. *)
Lemma heading_error (yaw : Z) (decl : Q) :
  (-32768 <= yaw <= 32767)%Z ->
  Qabs (to_float
          (to_double (to_double (to_double (1 # 10) * inject_Z yaw) + decl))
        - ((1 # 10) * inject_Z yaw + decl))
  <= pow2 (-23) * ((1 # 10) * Qabs (inject_Z yaw) + Qabs decl)
     + pow2 (-149).
Proof.
  intros [Hlo Hhi].
  set (y := inject_Z yaw).
  assert (HY : Qabs y <= 32768).
  { apply Qabs_Qle_condition. unfold y.
    rewrite Zle_Qle in Hlo, Hhi.
    change (inject_Z (-32768)) with (-(32768)) in Hlo.
    change (inject_Z 32767) with 32767 in Hhi. split; lra. }
  set (c := to_double (1 # 10)).
  assert (Hc : c == 3602879701896397 # 36028797018963968)
    by (vm_compute; reflexivity).
  set (p1 := to_double (c * y)).
  set (s := to_double (p1 + decl)).
  pose proof (to_double_error (c * y)) as E1. fold p1 in E1.
  pose proof (to_double_error (p1 + decl)) as E2. fold s in E2.
  pose proof (to_float_error s) as E3.
  pose proof (Qabs_nonneg y) as Y0. pose proof (Qabs_nonneg decl) as D0.
  assert (A1 : Qabs (c * y) == c * Qabs y).
  { rewrite Qabs_Qmult, (Qabs_pos c); [reflexivity |].
    rewrite Hc. discriminate. }
  assert (A2 : Qabs p1 <= Qabs (p1 - c * y) + Qabs (c * y)).
  { setoid_replace p1 with ((p1 - c * y) + c * y) at 1 by ring.
    apply Qabs_triangle. }
  assert (A3 : Qabs (p1 + decl) <= Qabs p1 + Qabs decl)
    by apply Qabs_triangle.
  assert (A4 : Qabs s <= Qabs (s - (p1 + decl)) + Qabs (p1 + decl)).
  { setoid_replace s with ((s - (p1 + decl)) + (p1 + decl)) at 1 by ring.
    apply Qabs_triangle. }
  assert (B1 : Qabs (c * y - (1 # 10) * y) <= pow2 (-57) * Qabs y).
  { setoid_replace (c * y - (1 # 10) * y) with ((c - (1 # 10)) * y) by ring.
    rewrite Qabs_Qmult. apply Qmult_le_compat_r; [| exact Y0].
    rewrite Hc. vm_compute. discriminate. }
  assert (T : Qabs (to_float s - ((1 # 10) * y + decl))
              <= Qabs (to_float s - s) + Qabs (s - (p1 + decl))
                 + Qabs (p1 - c * y) + Qabs (c * y - (1 # 10) * y)).
  { eapply Qle_trans; [apply (Qabs_diff_triangle _ s) |].
    assert (Qabs (s - ((1 # 10) * y + decl))
            <= Qabs (s - (p1 + decl)) + Qabs (p1 - c * y)
               + Qabs (c * y - (1 # 10) * y)).
    { eapply Qle_trans; [apply (Qabs_diff_triangle _ (p1 + decl)) |].
      assert (Qabs (p1 + decl - ((1 # 10) * y + decl))
              <= Qabs (p1 - c * y) + Qabs (c * y - (1 # 10) * y)).
      { setoid_replace (p1 + decl - ((1 # 10) * y + decl))
          with (p1 - (1 # 10) * y) by ring.
        apply Qabs_diff_triangle. }
      lra. }
    lra. }
  rewrite A1 in *. rewrite Hc in *.
  pow2_values. lra.
Qed.

(** One fin of [pid_control] against the exact affine value, before the
    conversion to an integer. *)
Lemma pid_fin_error (trim off : Q) (pos v : Z) :
  Qabs (to_double
          (to_double (inject_Z pos + to_double (trim * inject_Z v)) + off)
        - (inject_Z pos + trim * inject_Z v + off))
  <= pow2 (-50) * (Qabs (inject_Z pos) + Qabs (trim * inject_Z v) + Qabs off)
     + pow2 (-190).
Proof.
  set (h := inject_Z pos). set (t := trim * inject_Z v).
  set (p := to_double t).
  set (s1 := to_double (h + p)).
  pose proof (to_double_error t) as E1. fold p in E1.
  pose proof (to_double_error (h + p)) as E2. fold s1 in E2.
  pose proof (to_double_error (s1 + off)) as E3.
  pose proof (Qabs_nonneg h) as H0. pose proof (Qabs_nonneg t) as T0.
  pose proof (Qabs_nonneg off) as O0.
  assert (A1 : Qabs p <= Qabs (p - t) + Qabs t).
  { setoid_replace p with ((p - t) + t) at 1 by ring. apply Qabs_triangle. }
  assert (A2 : Qabs (h + p) <= Qabs h + Qabs p) by apply Qabs_triangle.
  assert (A3 : Qabs s1 <= Qabs (s1 - (h + p)) + Qabs (h + p)).
  { setoid_replace s1 with ((s1 - (h + p)) + (h + p)) at 1 by ring.
    apply Qabs_triangle. }
  assert (A4 : Qabs (s1 + off) <= Qabs s1 + Qabs off) by apply Qabs_triangle.
  assert (T : Qabs (to_double (s1 + off) - (h + t + off))
              <= Qabs (to_double (s1 + off) - (s1 + off))
                 + Qabs (s1 - (h + p)) + Qabs (p - t)).
  { eapply Qle_trans; [apply (Qabs_diff_triangle _ (s1 + off)) |].
    assert (Qabs (s1 + off - (h + t + off))
            <= Qabs (s1 - (h + p)) + Qabs (p - t)).
    { setoid_replace (s1 + off - (h + t + off)) with (s1 - (h + t)) by ring.
      eapply Qle_trans; [apply (Qabs_diff_triangle _ (h + p)) |].
      setoid_replace (h + p - (h + t)) with (p - t) by ring.
      apply Qle_refl. }
    lra. }
  pow2_values. lra.
Qed.

Lemma wrap_int_id (z : Z) : int_range z -> wrap_int z = z.
Proof.
  unfold int_range, wrap_int, INT_MIN, INT_MAX. intro H.
  rewrite Z.mod_small; lia.
Qed.

(** Discharge the range conditions of concrete inputs by evaluation. *)
Ltac in_range :=
  unfold pid_mix_defined, pid_fin_defined, coug_mix_defined, heading_defined,
    fits_int, int_range, double_range, float_range;
  repeat match goal with
         | |- _ /\ _ => split
         | |- True => exact I
         | |- (_ <= _)%Z => vm_compute; discriminate
         | |- _ <= _ => apply Qle_bool_iff; vm_compute; reflexivity
         end.

(** ** The axis controller *)

Lemma compute_keeps_bounds (p : PID.PID) (desired actual : Q) :
  PID.min_output (snd (PID.compute p desired actual)) = PID.min_output p
  /\ PID.max_output (snd (PID.compute p desired actual)) = PID.max_output p.
Proof. split; reflexivity. Qed.

Lemma reachable_keeps_bounds (p0 p : PID.PID) :
  PID.reachable p0 p ->
  PID.min_output p = PID.min_output p0 /\ PID.max_output p = PID.max_output p0.
Proof.
  induction 1 as [| p desired actual _ [IHmin IHmax]].
  - split; reflexivity.
  - destruct (compute_keeps_bounds p desired actual) as [Hmin Hmax].
    split; congruence.
Qed.

Lemma compute_in_bounds (p : PID.PID) (desired actual : Q) :
  (PID.min_output p <= PID.max_output p)%Z ->
  (PID.min_output p <= fst (PID.compute p desired actual) <= PID.max_output p)%Z.
Proof.
  intro Hb. unfold PID.compute. cbv zeta. cbn [fst].
  match goal with
  | |- context [round_half_away (clamp ?r _ _)] =>
      destruct (clamp_bounds r _ _ Hb) as [Hlo Hhi]
  end.
  split.
  - now apply round_half_away_lower.
  - now apply round_half_away_upper.
Qed.

Lemma calibrate_ok (p_kp p_ki p_kd : Q) (mn mx timer_period p_bias : Z) :
  (0 < timer_period)%Z -> (mn <= mx)%Z ->
  PID.calibrate p_kp p_ki p_kd mn mx timer_period p_bias =
  Ok (PID.mkPID p_kp p_ki p_kd mn mx (inject_Z timer_period / 1000) p_bias
        0 0 0).
Proof.
  intros Hp Hb. unfold PID.calibrate.
  destruct (Z.leb_spec timer_period 0); [lia |].
  destruct (Z.ltb_spec mx mn); [lia |].
  reflexivity.
Qed.

(** C1.  After a valid calibration (positive period, [min_output <=
    max_output]) the calibration succeeds, and in every controller state
    reached from it by [compute] calls, [compute] on any rational inputs
    returns an integer in the closed interval [[min_output, max_output]]. *)
Theorem compute_output_in_bounds
    (p_kp p_ki p_kd : Q) (mn mx timer_period p_bias : Z) :
  (0 < timer_period)%Z -> (mn <= mx)%Z ->
  exists p0 : PID.PID,
    PID.calibrate p_kp p_ki p_kd mn mx timer_period p_bias = Ok p0
    /\ forall p : PID.PID, PID.reachable p0 p ->
       forall desired actual : Q,
         (mn <= fst (PID.compute p desired actual) <= mx)%Z.
Proof.
  intros Hp Hb. eexists. split.
  - apply calibrate_ok; assumption.
  - intros p Hr desired actual.
    destruct (reachable_keeps_bounds _ _ Hr) as [Hmin Hmax].
    cbn [PID.min_output PID.max_output] in Hmin, Hmax.
    rewrite <- Hmin, <- Hmax.
    apply compute_in_bounds. rewrite Hmin, Hmax. exact Hb.
Qed.

Lemma compute_output_in_bounds_witness :
  exists p0 : PID.PID,
    PID.calibrate 2 0 0 (-100) 100 80 0 = Ok p0
    /\ forall p : PID.PID, PID.reachable p0 p ->
       forall desired actual : Q,
         (-100 <= fst (PID.compute p desired actual) <= 100)%Z.
Proof.
  apply (compute_output_in_bounds 2 0 0 (-100) 100 80 0); lia.
Defined.

(** The declared defaults are a valid configuration for both nodes. *)
Example default_params_construct :
  (exists n, PIDControl.new PIDControl.default_params = Ok n)
  /\ (exists n, CougControls.new CougControls.default_params = Ok n).
Proof. split; eexists; reflexivity. Qed.

(** The worked scenarios of the spec. *)
Example worked_scenario_1 :
  fst (PID.compute (PID.mkPID 2 0 0 (-100) 100 (80 # 1000) 0 0 0 0) 5 3) = 4%Z.
Proof. reflexivity. Qed.

Example worked_scenario_2 :
  fst (PID.compute (PID.mkPID 2 0 0 (-100) 100 (80 # 1000) 0 0 0 0) 3 100)
  = (-100)%Z.
Proof. reflexivity. Qed.

(** ** The [pid_control] node: one tick, and what a run stores *)

Lemma pid_timer_callback_eq (now : Z) (s : PIDControl.Node) :
  PIDControl.timer_callback now s =
  if PIDControl.init_flag s then
    let dc := PID.compute (PIDControl.myDepthPID s)
                (PIDControl.desired_depth s) (- PIDControl.depth s) in
    let hc := PID.compute (PIDControl.myHeadingPID s)
                (PIDControl.desired_heading s) (PIDControl.yaw s) in
    (PIDControl.mkNode (PIDControl.params s) (PIDControl.init_flag s)
       (snd hc) (snd dc) (PIDControl.myVelocityPID s)
       (PIDControl.desired_depth s) (PIDControl.desired_heading s)
       (PIDControl.desired_speed s) (PIDControl.yaw s)
       (PIDControl.x_velocity s) (PIDControl.depth s),
     [Compute Depth (PIDControl.desired_depth s) (- PIDControl.depth s);
      Compute Heading (PIDControl.desired_heading s) (PIDControl.yaw s);
      Publish (PIDControl.mix (PIDControl.params s)
                 (set_stamp UCommand_default now) (fst dc) (fst hc)
                 (float_to_int (PIDControl.desired_speed s)))])
  else (s, []).
Proof. reflexivity. Qed.

Lemma coug_timer_callback_eq (now : Z) (s : CougControls.Node) :
  CougControls.timer_callback now s =
  if CougControls.init_flag s then
    let dc := PID.compute (CougControls.myDepthPID s)
                (CougControls.desired_depth s)
                (- CougControls.actual_depth s) in
    let hc := PID.compute (CougControls.myHeadingPID s)
                (CougControls.desired_heading s)
                (CougControls.actual_heading s) in
    (CougControls.mkNode (CougControls.params s) (CougControls.init_flag s)
       (snd hc) (snd dc) (CougControls.magnetic_declination s)
       (CougControls.desired_depth s) (CougControls.desired_heading s)
       (CougControls.desired_speed s) (CougControls.actual_depth s)
       (CougControls.actual_heading s),
     [Compute Depth (CougControls.desired_depth s)
        (- CougControls.actual_depth s);
      Compute Heading (CougControls.desired_heading s)
        (CougControls.actual_heading s);
      Publish (CougControls.mix (set_stamp UCommand_default now)
                 (fst dc) (fst hc) (CougControls.desired_speed s))])
  else (s, []).
Proof. reflexivity. Qed.

(** Case analysis on one dispatched event, with the tick unfolded. *)
Ltac pid_dispatch_cases s e :=
  destruct e as [| ? | ? | ? | ? | m | now]; cbn [PIDControl.dispatch fst snd];
  [ | | | | | unfold PIDControl.yaw_callback;
              destruct (msg_id m =? 16)%Z
          | rewrite pid_timer_callback_eq;
            destruct (PIDControl.init_flag s) eqn:?; cbv zeta ];
  cbn.

Ltac coug_dispatch_cases s e :=
  destruct e as [| ? | ? | ? | ? | m | now]; cbn [CougControls.dispatch fst snd];
  [ | | | | | | rewrite coug_timer_callback_eq;
                destruct (CougControls.init_flag s) eqn:?; cbv zeta ];
  cbn.

Section PidControlRuns.

Import PIDControl.

Lemma pid_spin_cons (s : Node) (e : event) (evs : list event) :
  spin s (e :: evs) =
  (fst (spin (fst (dispatch s e)) evs),
   snd (dispatch s e) ++ snd (spin (fst (dispatch s e)) evs)).
Proof.
  cbn [spin]. destruct (dispatch s e) as [s1 o1]. cbn [fst snd].
  destruct (spin s1 evs) as [s2 o2]. reflexivity.
Qed.

(** A field that every callback either overwrites with the value selected
    from its message or leaves alone holds the latest such value. *)
Lemma pid_spin_latest (f : Node -> Q) (sel : event -> option Q) :
  (forall s e, f (fst (dispatch s e)) =
               match sel e with Some x => x | None => f s end) ->
  forall evs s, f (fst (spin s evs)) = latest sel evs (f s).
Proof.
  intros Hstep evs. induction evs as [| e evs IH]; intro s.
  - reflexivity.
  - rewrite pid_spin_cons. cbn [fst latest]. rewrite IH, Hstep. reflexivity.
Qed.

Lemma pid_spin_desired_depth evs s :
  desired_depth (fst (spin s evs)) =
  latest sel_desired_depth evs (desired_depth s).
Proof.
  apply pid_spin_latest. clear. intros s e.
  pid_dispatch_cases s e; reflexivity.
Qed.

Lemma pid_spin_desired_heading evs s :
  desired_heading (fst (spin s evs)) =
  latest sel_desired_heading evs (desired_heading s).
Proof.
  apply pid_spin_latest. clear. intros s e.
  pid_dispatch_cases s e; reflexivity.
Qed.

Lemma pid_spin_desired_speed evs s :
  desired_speed (fst (spin s evs)) =
  latest sel_desired_speed evs (desired_speed s).
Proof.
  apply pid_spin_latest. clear. intros s e.
  pid_dispatch_cases s e; reflexivity.
Qed.

Lemma pid_spin_depth evs s :
  depth (fst (spin s evs)) = latest sel_depth evs (depth s).
Proof.
  apply pid_spin_latest. clear. intros s e.
  pid_dispatch_cases s e; reflexivity.
Qed.

Lemma pid_spin_yaw evs s :
  yaw (fst (spin s evs)) = latest sel_yaw evs (yaw s).
Proof.
  apply pid_spin_latest. clear. intros s e.
  destruct e as [| ? | ? | ? | ? | m | now]; cbn [dispatch fst snd sel_yaw];
    try reflexivity.
  - unfold yaw_callback. destruct (msg_id m =? 16)%Z; reflexivity.
  - rewrite pid_timer_callback_eq. destruct (init_flag s); reflexivity.
Qed.

Lemma pid_spin_params evs : forall s, params (fst (spin s evs)) = params s.
Proof.
  induction evs as [| e evs IH]; intro s; [reflexivity |].
  rewrite pid_spin_cons. cbn [fst]. rewrite IH.
  pid_dispatch_cases s e; reflexivity.
Qed.

Lemma pid_dispatch_flag s e :
  init_flag s = true -> init_flag (fst (dispatch s e)) = true.
Proof.
  intro H. pid_dispatch_cases s e; try assumption; try reflexivity.
  congruence.
Qed.

Lemma pid_spin_flag evs :
  forall s, init_flag s = true -> init_flag (fst (spin s evs)) = true.
Proof.
  induction evs as [| e evs IH]; intros s H; [exact H |].
  rewrite pid_spin_cons. cbn [fst]. apply IH, pid_dispatch_flag, H.
Qed.

Lemma pid_new_inv ps n :
  new ps = Ok n ->
  params n = ps /\ init_flag n = false
  /\ desired_depth n = 0 /\ desired_heading n = 0 /\ desired_speed n = 0
  /\ yaw n = 0 /\ depth n = 0.
Proof.
  unfold new, bind. intro H.
  repeat match type of H with
         | match ?c with Ok _ => _ | Err _ => _ end = _ =>
             destruct c; [| discriminate]
         end.
  injection H as <-. repeat split.
Qed.

End PidControlRuns.

Section CougControlsRuns.

Import CougControls.

Lemma coug_spin_cons (s : Node) (e : event) (evs : list event) :
  spin s (e :: evs) =
  (fst (spin (fst (dispatch s e)) evs),
   snd (dispatch s e) ++ snd (spin (fst (dispatch s e)) evs)).
Proof.
  cbn [spin]. destruct (dispatch s e) as [s1 o1]. cbn [fst snd].
  destruct (spin s1 evs) as [s2 o2]. reflexivity.
Qed.

Lemma coug_spin_latest (f : Node -> Q) (sel : event -> option Q) :
  (forall s e, f (fst (dispatch s e)) =
               match sel e with Some x => x | None => f s end) ->
  forall evs s, f (fst (spin s evs)) = latest sel evs (f s).
Proof.
  intros Hstep evs. induction evs as [| e evs IH]; intro s.
  - reflexivity.
  - rewrite coug_spin_cons. cbn [fst latest]. rewrite IH, Hstep.
    reflexivity.
Qed.

Lemma coug_spin_desired_depth evs s :
  desired_depth (fst (spin s evs)) =
  latest sel_desired_depth evs (desired_depth s).
Proof.
  apply coug_spin_latest. clear. intros s e.
  coug_dispatch_cases s e; reflexivity.
Qed.

Lemma coug_spin_desired_heading evs s :
  desired_heading (fst (spin s evs)) =
  latest sel_desired_heading evs (desired_heading s).
Proof.
  apply coug_spin_latest. clear. intros s e.
  coug_dispatch_cases s e; reflexivity.
Qed.

Lemma coug_spin_desired_speed evs s :
  desired_speed (fst (spin s evs)) =
  latest sel_desired_speed evs (desired_speed s).
Proof.
  apply coug_spin_latest. clear. intros s e.
  coug_dispatch_cases s e; reflexivity.
Qed.

Lemma coug_spin_actual_depth evs s :
  actual_depth (fst (spin s evs)) = latest sel_depth evs (actual_depth s).
Proof.
  apply coug_spin_latest. clear. intros s e.
  coug_dispatch_cases s e; reflexivity.
Qed.

Lemma coug_spin_declination evs :
  forall s, magnetic_declination (fst (spin s evs)) = magnetic_declination s.
Proof.
  induction evs as [| e evs IH]; intro s; [reflexivity |].
  rewrite coug_spin_cons. cbn [fst]. rewrite IH.
  coug_dispatch_cases s e; reflexivity.
Qed.

Lemma coug_spin_actual_heading evs :
  forall s, actual_heading (fst (spin s evs)) =
            latest (sel_heading (magnetic_declination s)) evs
              (actual_heading s).
Proof.
  induction evs as [| e evs IH]; intro s; [reflexivity |].
  rewrite coug_spin_cons. cbn [fst latest]. rewrite IH.
  coug_dispatch_cases s e; reflexivity.
Qed.

Lemma coug_dispatch_flag s e :
  init_flag s = true -> init_flag (fst (dispatch s e)) = true.
Proof.
  intro H. coug_dispatch_cases s e; try assumption; try reflexivity.
  congruence.
Qed.

Lemma coug_spin_flag evs :
  forall s, init_flag s = true -> init_flag (fst (spin s evs)) = true.
Proof.
  induction evs as [| e evs IH]; intros s H; [exact H |].
  rewrite coug_spin_cons. cbn [fst]. apply IH, coug_dispatch_flag, H.
Qed.

Lemma coug_new_inv ps n :
  new ps = Ok n ->
  params n = ps /\ init_flag n = false
  /\ magnetic_declination n = param_magnetic_declination ps
  /\ desired_depth n = 0 /\ desired_heading n = 0 /\ desired_speed n = 0
  /\ actual_depth n = 0 /\ actual_heading n = 0.
Proof.
  unfold new, bind. intro H.
  repeat match type of H with
         | match ?c with Ok _ => _ | Err _ => _ end = _ =>
             destruct c; [| discriminate]
         end.
  injection H as <-. repeat split.
Qed.

End CougControlsRuns.

(** ** A tick of a running node *)

Lemma pid_tick_running ps n evs now :
  PIDControl.new ps = Ok n ->
  let s := fst (PIDControl.spin n evs) in
  PIDControl.init_flag s = true ->
  let dd := PIDControl.latest PIDControl.sel_desired_depth evs 0 in
  let dh := PIDControl.latest PIDControl.sel_desired_heading evs 0 in
  let sp := PIDControl.latest PIDControl.sel_desired_speed evs 0 in
  let z := PIDControl.latest PIDControl.sel_depth evs 0 in
  let y := PIDControl.latest PIDControl.sel_yaw evs 0 in
  PIDControl.timer_callback now s =
  (PIDControl.mkNode ps true
     (snd (PID.compute (PIDControl.myHeadingPID s) dh y))
     (snd (PID.compute (PIDControl.myDepthPID s) dd (- z)))
     (PIDControl.myVelocityPID s) dd dh sp y (PIDControl.x_velocity s) z,
   [Compute Depth dd (- z); Compute Heading dh y;
    Publish
      (PIDControl.mix ps (set_stamp UCommand_default now)
         (fst (PID.compute (PIDControl.myDepthPID s) dd (- z)))
         (fst (PID.compute (PIDControl.myHeadingPID s) dh y))
         (float_to_int sp))]).
Proof.
  intros Hnew s Hf.
  destruct (pid_new_inv _ _ Hnew) as (Hps & _ & Hdd & Hdh & Hsp & Hy & Hz).
  rewrite pid_timer_callback_eq, Hf. cbv zeta.
  subst s.
  rewrite pid_spin_desired_depth, pid_spin_desired_heading,
    pid_spin_desired_speed, pid_spin_depth, pid_spin_yaw, pid_spin_params.
  rewrite Hps, Hdd, Hdh, Hsp, Hy, Hz. reflexivity.
Qed.

Lemma coug_tick_running ps n evs now :
  CougControls.new ps = Ok n ->
  let s := fst (CougControls.spin n evs) in
  CougControls.init_flag s = true ->
  let dd := CougControls.latest CougControls.sel_desired_depth evs 0 in
  let dh := CougControls.latest CougControls.sel_desired_heading evs 0 in
  let sp := CougControls.latest CougControls.sel_desired_speed evs 0 in
  let z := CougControls.latest CougControls.sel_depth evs 0 in
  let y := CougControls.latest
             (CougControls.sel_heading
                (CougControls.param_magnetic_declination ps)) evs 0 in
  CougControls.timer_callback now s =
  (CougControls.mkNode (CougControls.params s) true
     (snd (PID.compute (CougControls.myHeadingPID s) dh y))
     (snd (PID.compute (CougControls.myDepthPID s) dd (- z)))
     (CougControls.param_magnetic_declination ps) dd dh sp z y,
   [Compute Depth dd (- z); Compute Heading dh y;
    Publish
      (CougControls.mix (set_stamp UCommand_default now)
         (fst (PID.compute (CougControls.myDepthPID s) dd (- z)))
         (fst (PID.compute (CougControls.myHeadingPID s) dh y))
         sp)]).
Proof.
  intros Hnew s Hf.
  destruct (coug_new_inv _ _ Hnew)
    as (Hps & _ & Hdecl & Hdd & Hdh & Hsp & Hz & Hy).
  rewrite coug_timer_callback_eq, Hf. cbv zeta.
  subst s.
  rewrite coug_spin_desired_depth, coug_spin_desired_heading,
    coug_spin_desired_speed, coug_spin_actual_depth,
    coug_spin_actual_heading, coug_spin_declination.
  rewrite Hdecl, Hdd, Hdh, Hsp, Hy, Hz. reflexivity.
Qed.

(** ** The command of a tick, field by field *)

Lemma pid_mix_stamped (ps : PIDControl.Params) (now d h v : Z) :
  PIDControl.mix ps (set_stamp UCommand_default now) d h v =
  mkUCommand now
    [float_to_int
       (to_double
          (to_double (inject_Z h
                      + to_double (PIDControl.trim_ratio ps * inject_Z v))
           + PIDControl.top_fin_offset ps));
     float_to_int
       (to_double
          (to_double (inject_Z d
                      + to_double (PIDControl.trim_ratio ps * inject_Z v))
           + PIDControl.right_fin_offset ps));
     float_to_int
       (to_double
          (to_double (inject_Z d
                      + to_double (PIDControl.trim_ratio ps * inject_Z v))
           + PIDControl.left_fin_offset ps))]
    v.
Proof. reflexivity. Qed.

Lemma coug_mix_stamped (now d h : Z) (sp : Q) :
  int_range (-1 * d) ->
  CougControls.mix (set_stamp UCommand_default now) d h sp =
  mkUCommand now [h; (- d)%Z; d] (float_to_int sp).
Proof.
  intro Hr. unfold CougControls.mix, int_mul.
  rewrite (wrap_int_id _ Hr).
  replace (-1 * d)%Z with (- d)%Z by lia. reflexivity.
Qed.

(** ** The initialization gate *)

(** C2.  In every state a node reaches from its construction by messages
    whose values can be stored, a tick while the initialization flag is
    false leaves the node as it is and has no effect: no command is
    published and no [compute] call is made.  A tick while the flag is true
    makes one [compute] call of the depth and one of the heading
    controller, on the latest stored values (zero where none was received;
    the depth as narrowed to [float], negated), and publishes exactly one
    command: stamped with the time of the tick, its fins and thruster
    computed from the two outputs and the latest stored speed, where these
    computations are defined.  Both node variants. *)
Theorem tick_gate :
  (forall ps n evs now,
     PIDControl.new ps = Ok n ->
     Forall pid_event_in_range evs ->
     let s := fst (PIDControl.spin n evs) in
     (PIDControl.init_flag s = false ->
      PIDControl.timer_callback now s = (s, []))
     /\ (PIDControl.init_flag s = true ->
         let dd := PIDControl.latest PIDControl.sel_desired_depth evs 0 in
         let dh := PIDControl.latest PIDControl.sel_desired_heading evs 0 in
         let sp := PIDControl.latest PIDControl.sel_desired_speed evs 0 in
         let z := PIDControl.latest PIDControl.sel_depth evs 0 in
         let y := PIDControl.latest PIDControl.sel_yaw evs 0 in
         let d := fst (PID.compute (PIDControl.myDepthPID s) dd (- z)) in
         let h := fst (PID.compute (PIDControl.myHeadingPID s) dh y) in
         let v := float_to_int sp in
         pid_mix_defined ps d h sp ->
         snd (PIDControl.timer_callback now s) =
         [Compute Depth dd (- z); Compute Heading dh y;
          Publish
            (mkUCommand now
               [float_to_int
                  (to_double
                     (to_double
                        (inject_Z h
                         + to_double (PIDControl.trim_ratio ps * inject_Z v))
                      + PIDControl.top_fin_offset ps));
                float_to_int
                  (to_double
                     (to_double
                        (inject_Z d
                         + to_double (PIDControl.trim_ratio ps * inject_Z v))
                      + PIDControl.right_fin_offset ps));
                float_to_int
                  (to_double
                     (to_double
                        (inject_Z d
                         + to_double (PIDControl.trim_ratio ps * inject_Z v))
                      + PIDControl.left_fin_offset ps))]
               v)]
         /\ length (published (snd (PIDControl.timer_callback now s)))
            = 1%nat))
  /\
  (forall ps n evs now,
     CougControls.new ps = Ok n ->
     Forall (coug_event_in_range (CougControls.param_magnetic_declination ps))
       evs ->
     let s := fst (CougControls.spin n evs) in
     (CougControls.init_flag s = false ->
      CougControls.timer_callback now s = (s, []))
     /\ (CougControls.init_flag s = true ->
         let dd := CougControls.latest CougControls.sel_desired_depth evs 0 in
         let dh := CougControls.latest CougControls.sel_desired_heading evs 0 in
         let sp := CougControls.latest CougControls.sel_desired_speed evs 0 in
         let z := CougControls.latest CougControls.sel_depth evs 0 in
         let y := CougControls.latest
                    (CougControls.sel_heading
                       (CougControls.param_magnetic_declination ps)) evs 0 in
         let d := fst (PID.compute (CougControls.myDepthPID s) dd (- z)) in
         let h := fst (PID.compute (CougControls.myHeadingPID s) dh y) in
         coug_mix_defined d h sp ->
         snd (CougControls.timer_callback now s) =
         [Compute Depth dd (- z); Compute Heading dh y;
          Publish (mkUCommand now [h; (- d)%Z; d] (float_to_int sp))]
         /\ length (published (snd (CougControls.timer_callback now s)))
            = 1%nat)).
Proof.
  split; intros ps n evs now Hnew Hev s.
  - split; intro Hf.
    + rewrite pid_timer_callback_eq, Hf. reflexivity.
    + cbv zeta. intros _. subst s.
      rewrite (pid_tick_running _ _ _ _ Hnew Hf). cbn [snd].
      rewrite pid_mix_stamped. split; reflexivity.
  - split; intro Hf.
    + rewrite coug_timer_callback_eq, Hf. reflexivity.
    + cbv zeta. intros (_ & _ & _ & Hneg). subst s.
      rewrite (coug_tick_running _ _ _ _ Hnew Hf). cbn [snd].
      rewrite (coug_mix_stamped _ _ _ _ Hneg). split; reflexivity.
Qed.

Lemma tick_gate_witness :
  PIDControl.new pid_sample_params = Ok pid_sample_node
  /\ Forall pid_event_in_range pid_sample_events
  /\ PIDControl.init_flag
       (fst (PIDControl.spin pid_sample_node [PIDControl.DesiredDepth 5])) = false
  /\ PIDControl.timer_callback 7
       (fst (PIDControl.spin pid_sample_node [PIDControl.DesiredDepth 5]))
     = (fst (PIDControl.spin pid_sample_node [PIDControl.DesiredDepth 5]), [])
  /\ PIDControl.init_flag
       (fst (PIDControl.spin pid_sample_node pid_sample_events)) = true
  /\ snd (PIDControl.timer_callback 7
            (fst (PIDControl.spin pid_sample_node pid_sample_events))) =
     [Compute Depth 5 (- - (3)); Compute Heading 0 0;
      Publish (mkUCommand 7 [0; 4; 4]%Z 12)].
Proof.
  assert (Hev : Forall pid_event_in_range pid_sample_events).
  { repeat constructor. unfold float_range.
    apply Qle_bool_iff. vm_compute. reflexivity. }
  split; [reflexivity |]. split; [exact Hev |]. split; [reflexivity |].
  split.
  - apply (proj1 tick_gate pid_sample_params pid_sample_node
             [PIDControl.DesiredDepth 5] 7%Z eq_refl).
    + repeat constructor.
    + reflexivity.
  - split; [reflexivity |].
    refine (proj1 (proj2 (proj1 tick_gate pid_sample_params pid_sample_node
                            pid_sample_events 7%Z eq_refl Hev)
                     eq_refl _)).
    in_range.
Defined.

(** C3.  The initialization flag of a freshly constructed node is false,
    the init callback sets it to true, and from a state where it is true
    every run of callbacks ends in a state where it is true: no operation of
    the node resets it.  Both node variants. *)
Theorem init_flag_never_reset :
  (forall ps n, PIDControl.new ps = Ok n -> PIDControl.init_flag n = false)
  /\ (forall s, PIDControl.init_flag
                  (fst (PIDControl.dispatch s PIDControl.Init)) = true)
  /\ (forall s evs, PIDControl.init_flag s = true ->
                    PIDControl.init_flag (fst (PIDControl.spin s evs)) = true)
  /\ (forall ps n, CougControls.new ps = Ok n ->
                   CougControls.init_flag n = false)
  /\ (forall s, CougControls.init_flag
                  (fst (CougControls.dispatch s CougControls.Init)) = true)
  /\ (forall s evs, CougControls.init_flag s = true ->
                    CougControls.init_flag (fst (CougControls.spin s evs))
                    = true).
Proof.
  repeat split.
  - intros ps n H. apply (pid_new_inv _ _ H).
  - intros s evs. apply pid_spin_flag.
  - intros ps n H. apply (coug_new_inv _ _ H).
  - intros s evs. apply coug_spin_flag.
Qed.

Lemma init_flag_never_reset_witness :
  PIDControl.init_flag (PIDControl.init_callback pid_sample_node) = true
  /\ PIDControl.init_flag
       (fst (PIDControl.spin (PIDControl.init_callback pid_sample_node)
               [PIDControl.Timer 1; PIDControl.DesiredDepth 3;
                PIDControl.ModemRecMsg (mkModemRec 0x10 450);
                PIDControl.Timer 2; PIDControl.Init])) = true.
Proof.
  split; [reflexivity |].
  apply (proj1 (proj2 (proj2 init_flag_never_reset))). reflexivity.
Defined.

(** ** What a running tick feeds the controllers and the thruster *)

(** C5.  The depth callback stores the received position, narrowed to the
    [float] member and with its sign as received.  In every running state
    a node reaches from its construction by messages whose values can be
    stored, the tick calls [compute] of the depth controller once, with the
    latest desired depth and with the negation of the stored depth (the
    latest received one, zero if none), and the depth controller's next
    state is the one that call leaves.  Both node variants. *)
Theorem depth_sign_inverted :
  (forall ps n evs now,
     PIDControl.new ps = Ok n ->
     Forall pid_event_in_range evs ->
     let s := fst (PIDControl.spin n evs) in
     PIDControl.init_flag s = true ->
     let dd := PIDControl.latest PIDControl.sel_desired_depth evs 0 in
     let z := PIDControl.latest PIDControl.sel_depth evs 0 in
     (forall x s0,
        PIDControl.depth (PIDControl.depth_callback x s0) = to_float x)
     /\ PIDControl.depth s = z
     /\ (exists dh y,
           computes (snd (PIDControl.timer_callback now s)) =
           [(Depth, dd, - PIDControl.depth s); (Heading, dh, y)])
     /\ PIDControl.myDepthPID (fst (PIDControl.timer_callback now s)) =
        snd (PID.compute (PIDControl.myDepthPID s) dd (- PIDControl.depth s)))
  /\
  (forall ps n evs now,
     CougControls.new ps = Ok n ->
     Forall (coug_event_in_range (CougControls.param_magnetic_declination ps))
       evs ->
     let s := fst (CougControls.spin n evs) in
     CougControls.init_flag s = true ->
     let dd := CougControls.latest CougControls.sel_desired_depth evs 0 in
     let z := CougControls.latest CougControls.sel_depth evs 0 in
     (forall x s0,
        CougControls.actual_depth (CougControls.actual_depth_callback x s0)
        = to_float x)
     /\ CougControls.actual_depth s = z
     /\ (exists dh y,
           computes (snd (CougControls.timer_callback now s)) =
           [(Depth, dd, - CougControls.actual_depth s); (Heading, dh, y)])
     /\ CougControls.myDepthPID (fst (CougControls.timer_callback now s)) =
        snd (PID.compute (CougControls.myDepthPID s) dd
               (- CougControls.actual_depth s))).
Proof.
  split; intros ps n evs now Hnew Hev s Hf; cbv zeta.
  - assert (Hz : PIDControl.depth s =
                 PIDControl.latest PIDControl.sel_depth evs 0).
    { subst s. rewrite pid_spin_depth.
      destruct (pid_new_inv _ _ Hnew) as (_ & _ & _ & _ & _ & _ & ->).
      reflexivity. }
    split; [reflexivity |]. split; [exact Hz |].
    rewrite Hz. subst s.
    rewrite (pid_tick_running _ _ _ _ Hnew Hf). cbn [fst snd computes].
    split; [eexists; eexists; reflexivity | reflexivity].
  - assert (Hz : CougControls.actual_depth s =
                 CougControls.latest CougControls.sel_depth evs 0).
    { subst s. rewrite coug_spin_actual_depth.
      destruct (coug_new_inv _ _ Hnew) as (_ & _ & _ & _ & _ & _ & -> & _).
      reflexivity. }
    split; [reflexivity |]. split; [exact Hz |].
    rewrite Hz. subst s.
    rewrite (coug_tick_running _ _ _ _ Hnew Hf). cbn [fst snd computes].
    split; [eexists; eexists; reflexivity | reflexivity].
Qed.

Lemma depth_sign_inverted_witness :
  PIDControl.new pid_sample_params = Ok pid_sample_node
  /\ Forall pid_event_in_range pid_tenth_events
  /\ PIDControl.init_flag
       (fst (PIDControl.spin pid_sample_node pid_tenth_events)) = true
  /\ PIDControl.depth
       (fst (PIDControl.spin pid_sample_node pid_tenth_events))
     = to_float (to_double (1 # 10))
  /\ (exists dh y,
        computes (snd (PIDControl.timer_callback 7
          (fst (PIDControl.spin pid_sample_node pid_tenth_events)))) =
        [(Depth, 5,
          - PIDControl.depth
              (fst (PIDControl.spin pid_sample_node pid_tenth_events)));
         (Heading, dh, y)]).
Proof.
  assert (Hev : Forall pid_event_in_range pid_tenth_events).
  { repeat constructor. unfold float_range.
    apply Qle_bool_iff. vm_compute. reflexivity. }
  split; [reflexivity |]. split; [exact Hev |]. split; [reflexivity |].
  pose proof (proj1 depth_sign_inverted pid_sample_params pid_sample_node
                pid_tenth_events 7%Z eq_refl Hev eq_refl)
    as (_ & H1 & H2 & _).
  split; [exact H1 | exact H2].
Defined.

(** The narrowing of one tenth is the float 13421773 / 134217728. *)
Example depth_of_one_tenth :
  PIDControl.depth (PIDControl.depth_callback (to_double (1 # 10))
                      pid_sample_node) = 13421773 # 134217728.
Proof. vm_compute. reflexivity. Qed.

(** C9.  In every running state a node reaches from its construction by
    messages whose values can be stored, when the latest received desired
    speed (zero if none) converts to an integer, the tick publishes one
    command whose thruster field is that speed with its fraction dropped;
    no [compute] call of a speed controller is made, and in the
    [pid_control] node the speed controller is left as it was.  Both node
    variants. *)
Theorem thruster_pass_through :
  (forall ps n evs now,
     PIDControl.new ps = Ok n ->
     Forall pid_event_in_range evs ->
     let s := fst (PIDControl.spin n evs) in
     PIDControl.init_flag s = true ->
     let sp := PIDControl.latest PIDControl.sel_desired_speed evs 0 in
     fits_int sp ->
     (exists m, published (snd (PIDControl.timer_callback now s)) = [m]
                /\ thruster m = float_to_int sp)
     /\ (forall a d x,
           In (a, d, x) (computes (snd (PIDControl.timer_callback now s))) ->
           a <> Velocity)
     /\ PIDControl.myVelocityPID (fst (PIDControl.timer_callback now s)) =
        PIDControl.myVelocityPID s)
  /\
  (forall ps n evs now,
     CougControls.new ps = Ok n ->
     Forall (coug_event_in_range (CougControls.param_magnetic_declination ps))
       evs ->
     let s := fst (CougControls.spin n evs) in
     CougControls.init_flag s = true ->
     let sp := CougControls.latest CougControls.sel_desired_speed evs 0 in
     fits_int sp ->
     (exists m, published (snd (CougControls.timer_callback now s)) = [m]
                /\ thruster m = float_to_int sp)
     /\ (forall a d x,
           In (a, d, x) (computes (snd (CougControls.timer_callback now s))) ->
           a <> Velocity)).
Proof.
  split; intros ps n evs now Hnew Hev s Hf; cbv zeta; intros _; subst s.
  - rewrite (pid_tick_running _ _ _ _ Hnew Hf).
    cbn [fst snd computes published]. split; [| split].
    + eexists. split; reflexivity.
    + intros a d x [H | [H | []]]; injection H as <- _ _; discriminate.
    + reflexivity.
  - rewrite (coug_tick_running _ _ _ _ Hnew Hf).
    cbn [fst snd computes published]. split.
    + eexists. split; reflexivity.
    + intros a d x [H | [H | []]]; injection H as <- _ _; discriminate.
Qed.

Lemma thruster_pass_through_witness :
  PIDControl.new pid_sample_params = Ok pid_sample_node
  /\ Forall pid_event_in_range pid_sample_events
  /\ PIDControl.init_flag
       (fst (PIDControl.spin pid_sample_node pid_sample_events)) = true
  /\ fits_int (25 # 2)
  /\ (exists m,
        published (snd (PIDControl.timer_callback 7
          (fst (PIDControl.spin pid_sample_node pid_sample_events)))) = [m]
        /\ thruster m = 12%Z).
Proof.
  assert (Hev : Forall pid_event_in_range pid_sample_events).
  { repeat constructor. unfold float_range.
    apply Qle_bool_iff. vm_compute. reflexivity. }
  assert (Hsp : fits_int (25 # 2)) by in_range.
  split; [reflexivity |]. split; [exact Hev |]. split; [reflexivity |].
  split; [exact Hsp |].
  exact (proj1 (proj1 thruster_pass_through pid_sample_params pid_sample_node
                  pid_sample_events 7%Z eq_refl Hev eq_refl Hsp)).
Defined.

(** C10.  In the [pid_control] node, a modem report whose [msg_id] is not
    0x10 leaves the whole node state, the stored yaw included, unchanged; a
    report whose [msg_id] is 0x10 stores its yaw field and changes nothing
    else; so the stored yaw changes only on a report with [msg_id] 0x10. *)
Theorem yaw_callback_status_only (s : PIDControl.Node) (m : ModemRec) :
  (msg_id m <> 0x10%Z -> PIDControl.yaw_callback m s = s)
  /\ (msg_id m = 0x10%Z ->
      PIDControl.yaw_callback m s =
      PIDControl.mkNode (PIDControl.params s) (PIDControl.init_flag s)
        (PIDControl.myHeadingPID s) (PIDControl.myDepthPID s)
        (PIDControl.myVelocityPID s) (PIDControl.desired_depth s)
        (PIDControl.desired_heading s) (PIDControl.desired_speed s)
        (inject_Z (attitude_yaw m)) (PIDControl.x_velocity s)
        (PIDControl.depth s))
  /\ (PIDControl.yaw (PIDControl.yaw_callback m s) <> PIDControl.yaw s ->
      msg_id m = 0x10%Z).
Proof.
  unfold PIDControl.yaw_callback.
  destruct (Z.eqb_spec (msg_id m) 16) as [E | E].
  - repeat split; intros; [contradiction | exact E].
  - repeat split; intros; [contradiction | contradiction].
Qed.

Lemma yaw_callback_status_only_witness :
  msg_id (mkModemRec 0x15 450) <> 0x10%Z
  /\ PIDControl.yaw_callback (mkModemRec 0x15 450)
       (PIDControl.init_callback pid_sample_node)
     = PIDControl.init_callback pid_sample_node.
Proof.
  split; [discriminate |].
  apply (proj1 (yaw_callback_status_only
                  (PIDControl.init_callback pid_sample_node)
                  (mkModemRec 0x15 450))).
  discriminate.
Defined.

(** ** Configuration errors *)

(** C8.  If the configured period is not positive, or the lower output bound
    of an axis exceeds its upper bound, the constructor of the node ends
    with an error of a calibration and returns no node, and the process
    performs no effect at all, whatever is delivered to it: no command is
    ever published.  Both node variants; in [pid_control] the speed axis
    counts too. *)
Theorem misconfiguration_halts :
  (forall ps evs,
     (PIDControl.pid_timer_period ps <= 0
      \/ PIDControl.depth_max_output ps < PIDControl.depth_min_output ps
      \/ PIDControl.heading_max_output ps < PIDControl.heading_min_output ps
      \/ PIDControl.speed_max_output ps < PIDControl.speed_min_output ps)%Z ->
     (exists e, PIDControl.new ps = Err e)
     /\ PIDControl.main ps evs = []
     /\ published (PIDControl.main ps evs) = [])
  /\
  (forall ps evs,
     (CougControls.timer_period ps <= 0
      \/ CougControls.depth_max_output ps < CougControls.depth_min_output ps
      \/ CougControls.heading_max_output ps
         < CougControls.heading_min_output ps)%Z ->
     (exists e, CougControls.new ps = Err e)
     /\ CougControls.main ps evs = []
     /\ published (CougControls.main ps evs) = []).
Proof.
  split; intros ps evs H.
  - assert (He : exists e, PIDControl.new ps = Err e).
    { unfold PIDControl.new, bind, PID.calibrate.
      destruct (Z.leb_spec (PIDControl.pid_timer_period ps) 0);
        [eexists; reflexivity |].
      destruct (Z.ltb_spec (PIDControl.depth_max_output ps)
                  (PIDControl.depth_min_output ps));
        [eexists; reflexivity |].
      destruct (Z.ltb_spec (PIDControl.heading_max_output ps)
                  (PIDControl.heading_min_output ps));
        [eexists; reflexivity |].
      destruct (Z.ltb_spec (PIDControl.speed_max_output ps)
                  (PIDControl.speed_min_output ps));
        [eexists; reflexivity |].
      lia. }
    split; [exact He |]. destruct He as [e He].
    unfold PIDControl.main. rewrite He. split; reflexivity.
  - assert (He : exists e, CougControls.new ps = Err e).
    { unfold CougControls.new, bind, PID.calibrate.
      destruct (Z.leb_spec (CougControls.timer_period ps) 0);
        [eexists; reflexivity |].
      destruct (Z.ltb_spec (CougControls.depth_max_output ps)
                  (CougControls.depth_min_output ps));
        [eexists; reflexivity |].
      destruct (Z.ltb_spec (CougControls.heading_max_output ps)
                  (CougControls.heading_min_output ps));
        [eexists; reflexivity |].
      lia. }
    split; [exact He |]. destruct He as [e He].
    unfold CougControls.main. rewrite He. split; reflexivity.
Qed.

Lemma misconfiguration_halts_witness :
  (PIDControl.pid_timer_period pid_period_zero_params <= 0)%Z
  /\ PIDControl.main pid_period_zero_params
       [PIDControl.Init; PIDControl.Timer 1; PIDControl.Timer 2] = [].
Proof.
  split; [cbn; lia |].
  apply (proj1 misconfiguration_halts pid_period_zero_params
           [PIDControl.Init; PIDControl.Timer 1; PIDControl.Timer 2]).
  left. cbn. lia.
Defined.

(** ** The mixer *)

Lemma float_to_int_comp (x y : Q) : x == y -> float_to_int x = float_to_int y.
Proof.
  intro E. unfold float_to_int.
  rewrite (Qleb_comp 0 0 (Qeq_refl 0) x y E), (Qfloor_comp x y E),
    (Qceiling_comp x y E).
  reflexivity.
Qed.

Lemma float_to_int_Z (z : Z) : float_to_int (inject_Z z) = z.
Proof.
  unfold float_to_int.
  destruct (Qle_bool 0 (inject_Z z)); [apply Qfloor_Z | apply Qceiling_Z].
Qed.

Lemma float_to_int_error (x : Q) : Qabs (inject_Z (float_to_int x) - x) < 1.
Proof.
  apply Qabs_Qlt_condition. unfold float_to_int.
  destruct (Qle_bool 0 x).
  - pose proof (Qfloor_le x) as Hl. pose proof (Qlt_floor x) as Hu.
    rewrite inject_Z_plus in Hu. change (inject_Z 1) with 1 in Hu.
    split; lra.
  - pose proof (Qle_ceiling x) as Hu. pose proof (Qceiling_lt x) as Hl.
    unfold Z.sub in Hl. rewrite inject_Z_plus, inject_Z_opp in Hl.
    change (inject_Z 1) with 1 in Hl.
    split; lra.
Qed.

Lemma pid_mix_fins (ps : PIDControl.Params) (message : UCommand)
    (depth_pos heading_pos velocity_level : Z) :
  length (fin message) = 3%nat ->
  fin (PIDControl.mix ps message depth_pos heading_pos velocity_level) =
  [float_to_int
     (to_double
        (to_double
           (inject_Z heading_pos
            + to_double (PIDControl.trim_ratio ps * inject_Z velocity_level))
         + PIDControl.top_fin_offset ps));
   float_to_int
     (to_double
        (to_double
           (inject_Z depth_pos
            + to_double (PIDControl.trim_ratio ps * inject_Z velocity_level))
         + PIDControl.right_fin_offset ps));
   float_to_int
     (to_double
        (to_double
           (inject_Z depth_pos
            + to_double (PIDControl.trim_ratio ps * inject_Z velocity_level))
         + PIDControl.left_fin_offset ps))].
Proof.
  destruct message as [t f th]. cbn [fin].
  destruct f as [| a [| b [| c [| ? ?]]]]; try discriminate.
  reflexivity.
Qed.

(** A fin of [pid_control] against the exact affine value: the conversion
    moves it by less than one, the roundings by a relative [2 ^ -50]. *)
Lemma pid_fin_close (trim off : Q) (pos v : Z) :
  Qabs (inject_Z
          (float_to_int
             (to_double
                (to_double (inject_Z pos + to_double (trim * inject_Z v))
                 + off)))
        - (inject_Z pos + trim * inject_Z v + off))
  < 1 + pow2 (-50) * (Qabs (inject_Z pos) + Qabs (trim * inject_Z v)
                      + Qabs off)
    + pow2 (-190).
Proof.
  set (x := to_double
              (to_double (inject_Z pos + to_double (trim * inject_Z v))
               + off)).
  pose proof (float_to_int_error x) as H1.
  pose proof (pid_fin_error trim off pos v) as H2. fold x in H2.
  pose proof (Qabs_diff_triangle (inject_Z (float_to_int x)) x
                (inject_Z pos + trim * inject_Z v + off)) as H3.
  lra.
Qed.

(** With an integer trim ratio and offset of moderate size nothing is
    rounded. *)
Lemma pid_fin_exact (trim off : Q) (pos v t o : Z) :
  trim == inject_Z t -> off == inject_Z o ->
  (Z.abs pos < 2 ^ 50)%Z -> (Z.abs (t * v) < 2 ^ 50)%Z ->
  (Z.abs o < 2 ^ 50)%Z ->
  float_to_int
    (to_double
       (to_double (inject_Z pos + to_double (trim * inject_Z v)) + off))
  = (pos + t * v + o)%Z.
Proof.
  intros Et Eo Hp Htv Ho.
  assert (E1 : to_double (trim * inject_Z v) == inject_Z (t * v)).
  { rewrite (to_double_comp _ (inject_Z (t * v))).
    - apply to_double_Z. lia.
    - rewrite Et, inject_Z_mult. reflexivity. }
  assert (E2 : to_double (inject_Z pos + to_double (trim * inject_Z v))
               == inject_Z (pos + t * v)).
  { rewrite (to_double_comp _ (inject_Z (pos + t * v))).
    - apply to_double_Z. lia.
    - rewrite E1, inject_Z_plus. reflexivity. }
  assert (E3 : to_double
                 (to_double (inject_Z pos + to_double (trim * inject_Z v))
                  + off)
               == inject_Z (pos + t * v + o)).
  { rewrite (to_double_comp _ (inject_Z (pos + t * v + o))).
    - apply to_double_Z. lia.
    - rewrite E2, Eo, <- inject_Z_plus. reflexivity. }
  rewrite (float_to_int_comp _ _ E3). apply float_to_int_Z.
Qed.

(** The claim C4 fails on [pid_control]: with a trim ratio of one half, a
    desired speed of 1 and no offsets, both axis outputs are 0 and the
    published top fin is 0, where the mixing law asks for one half; the law
    fails on this command whatever the two depth-fin signs are. *)
Lemma mixing_law_counterexample :
  let s := fst (PIDControl.spin pid_half_trim_node
                  [PIDControl.DesiredSpeed 1; PIDControl.Init]) in
  let d := fst (PID.compute (PIDControl.myDepthPID s)
                  (PIDControl.desired_depth s) (- PIDControl.depth s)) in
  let h := fst (PID.compute (PIDControl.myHeadingPID s)
                  (PIDControl.desired_heading s) (PIDControl.yaw s)) in
  let v := float_to_int (PIDControl.desired_speed s) in
  PIDControl.new pid_half_trim_params = Ok pid_half_trim_node
  /\ PIDControl.init_flag s = true
  /\ (d = 0 /\ h = 0 /\ v = 1)%Z
  /\ published (snd (PIDControl.timer_callback 7 s)) =
     [mkUCommand 7 [0; 0; 0]%Z 1]
  /\ forall sign_r sign_l : Z,
       ~ mixing_law sign_r sign_l
           (PIDControl.trim_ratio (PIDControl.params s))
           (PIDControl.top_fin_offset (PIDControl.params s))
           (PIDControl.right_fin_offset (PIDControl.params s))
           (PIDControl.left_fin_offset (PIDControl.params s))
           d h v (mkUCommand 7 [0; 0; 0]%Z 1).
Proof.
  cbv zeta. split; [reflexivity |]. split; [reflexivity |].
  split; [repeat split |]. split; [reflexivity |].
  intros sr sl (Htop & _). vm_compute in Htop. discriminate.
Qed.

(** With the sample gains, a desired depth of 5 and a measured depth of -3,
    the depth output of [pid_control] is 4 and the command carries 4 on both
    depth fins. *)
Example pid_control_depth_fins :
  let s := fst (PIDControl.spin pid_sample_node pid_sample_events) in
  fst (PID.compute (PIDControl.myDepthPID s)
         (PIDControl.desired_depth s) (- PIDControl.depth s)) = 4%Z
  /\ published (snd (PIDControl.timer_callback 7 s)) =
     [mkUCommand 7 [0; 4; 4]%Z 12].
Proof. split; reflexivity. Qed.

(** C4 (amended).  In a running state where the computations are defined,
    the [pid_control] tick publishes one command whose top fin is the
    heading output plus the trim ratio times the integer speed level plus
    the top fin offset, and whose right and left fins are each a copy of
    the depth output under a fixed sign, plus the trim ratio times the
    speed level plus that fin's offset; each is evaluated in [double]
    (product and sums rounded) and converted to an integer by dropping the
    fraction.  The [coug_controls] tick publishes one command whose top fin
    is the heading output, whose right fin is the negated depth output and
    whose left fin is the depth output: the mixing law with signs -1 and +1
    and no trim or offset. *)
Theorem mixing_law_by_variant :
  (exists sign_r sign_l : Z,
     (sign_r = 1 \/ sign_r = -1)%Z /\ (sign_l = 1 \/ sign_l = -1)%Z
     /\ forall s now,
          PIDControl.init_flag s = true ->
          let d := fst (PID.compute (PIDControl.myDepthPID s)
                          (PIDControl.desired_depth s)
                          (- PIDControl.depth s)) in
          let h := fst (PID.compute (PIDControl.myHeadingPID s)
                          (PIDControl.desired_heading s)
                          (PIDControl.yaw s)) in
          let v := float_to_int (PIDControl.desired_speed s) in
          let ps := PIDControl.params s in
          pid_mix_defined ps d h (PIDControl.desired_speed s) ->
          exists m,
            published (snd (PIDControl.timer_callback now s)) = [m]
            /\ fin_at m 0 =
               float_to_int
                 (to_double
                    (to_double
                       (inject_Z h
                        + to_double (PIDControl.trim_ratio ps * inject_Z v))
                     + PIDControl.top_fin_offset ps))
            /\ fin_at m 1 =
               float_to_int
                 (to_double
                    (to_double
                       (inject_Z (sign_r * d)
                        + to_double (PIDControl.trim_ratio ps * inject_Z v))
                     + PIDControl.right_fin_offset ps))
            /\ fin_at m 2 =
               float_to_int
                 (to_double
                    (to_double
                       (inject_Z (sign_l * d)
                        + to_double (PIDControl.trim_ratio ps * inject_Z v))
                     + PIDControl.left_fin_offset ps)))
  /\
  (forall s now,
     CougControls.init_flag s = true ->
     let d := fst (PID.compute (CougControls.myDepthPID s)
                     (CougControls.desired_depth s)
                     (- CougControls.actual_depth s)) in
     let h := fst (PID.compute (CougControls.myHeadingPID s)
                     (CougControls.desired_heading s)
                     (CougControls.actual_heading s)) in
     coug_mix_defined d h (CougControls.desired_speed s) ->
     exists m,
       published (snd (CougControls.timer_callback now s)) = [m]
       /\ fin_at m 0 = h /\ fin_at m 1 = (- d)%Z /\ fin_at m 2 = d
       /\ mixing_law (-1) 1 0 0 0 0 d h
            (float_to_int (CougControls.desired_speed s)) m).
Proof.
  split.
  - exists 1%Z, 1%Z. split; [left; reflexivity |].
    split; [left; reflexivity |].
    intros s now Hf. cbv zeta. intros _.
    rewrite pid_timer_callback_eq, Hf. cbv zeta. cbn [snd published].
    eexists. split; [reflexivity |].
    rewrite pid_mix_stamped, !Z.mul_1_l. repeat split.
  - intros s now Hf. cbv zeta. intros (_ & _ & _ & Hneg).
    rewrite coug_timer_callback_eq, Hf. cbv zeta. cbn [snd published].
    eexists. split; [reflexivity |].
    rewrite (coug_mix_stamped _ _ _ _ Hneg).
    unfold mixing_law, fin_at. cbn [fin nth].
    repeat split.
    + ring.
    + rewrite inject_Z_opp. change (inject_Z (-1)) with (-(1)). ring.
    + change (inject_Z 1) with 1. ring.
Qed.

Lemma mixing_law_by_variant_witness :
  CougControls.init_flag
    (fst (CougControls.spin coug_sample_node coug_sample_events)) = true
  /\ coug_mix_defined 4 0 (25 # 2)
  /\ exists m,
       published (snd (CougControls.timer_callback 7
         (fst (CougControls.spin coug_sample_node coug_sample_events)))) = [m]
       /\ fin_at m 0 = 0%Z /\ fin_at m 1 = (- 4)%Z /\ fin_at m 2 = 4%Z
       /\ mixing_law (-1) 1 0 0 0 0 4 0 12 m.
Proof.
  assert (Hd : coug_mix_defined 4 0 (25 # 2)) by in_range.
  split; [reflexivity |]. split; [exact Hd |].
  exact (proj2 mixing_law_by_variant
           (fst (CougControls.spin coug_sample_node coug_sample_events))
           7%Z eq_refl Hd).
Defined.

(** The claim C7 fails: with a trim ratio of one half and zero offsets, the
    top fin is 0, 0 and 1 at the speed levels 0, 1 and 2 (axis outputs 0),
    so the value at the midpoint is not the mean of the values at the ends,
    and the top fin is not an affine function of the triple. *)
Lemma mix_affine_counterexample :
  let f := fun d h v : Z =>
             fin_at (PIDControl.mix pid_half_trim_params UCommand_default
                       d h v) 0 in
  f 0%Z 0%Z 0%Z = 0%Z /\ f 0%Z 0%Z 1%Z = 0%Z /\ f 0%Z 0%Z 2%Z = 1%Z
  /\ ~ affine3 f.
Proof.
  cbv zeta. repeat (split; [reflexivity |]).
  intros (a & b & c & k & H).
  pose proof (H 0%Z 0%Z 0%Z) as H0.
  pose proof (H 0%Z 0%Z 1%Z) as H1.
  pose proof (H 0%Z 0%Z 2%Z) as H2.
  change (fin_at (PIDControl.mix pid_half_trim_params UCommand_default 0 0 0) 0)
    with 0%Z in H0.
  change (fin_at (PIDControl.mix pid_half_trim_params UCommand_default 0 0 1) 0)
    with 0%Z in H1.
  change (fin_at (PIDControl.mix pid_half_trim_params UCommand_default 0 0 2) 0)
    with 1%Z in H2.
  change (inject_Z 0) with 0 in H0, H1, H2.
  change (inject_Z 1) with 1 in H1, H2.
  change (inject_Z 2) with 2 in H2.
  lra.
Qed.

(** C7 (amended).  For fixed trim ratio and offsets, each fin value the
    mixer writes into a message with three fin slots is the affine
    expression of the triple (depth output, heading output, speed level)
    evaluated in [double] and converted to an integer by dropping the
    fraction.  Where that evaluation is defined, it differs from the exact
    affine value by less than one plus a relative [2 ^ -50] of the terms,
    so nothing is clamped, and it equals the exact affine value when the
    trim ratio and the offset are integers and the terms are below
    [2 ^ 50] in magnitude.  The command of a running tick keeps no memory:
    two running states with the same parameters, the same two outputs and
    the same speed level publish the same command at the same time. *)
Theorem mix_truncated_affine (ps : PIDControl.Params) (message : UCommand)
    (d h v : Z) :
  length (fin message) = 3%nat ->
  pid_fin_defined (PIDControl.trim_ratio ps) h v
    (PIDControl.top_fin_offset ps) ->
  pid_fin_defined (PIDControl.trim_ratio ps) d v
    (PIDControl.right_fin_offset ps) ->
  pid_fin_defined (PIDControl.trim_ratio ps) d v
    (PIDControl.left_fin_offset ps) ->
  let m := PIDControl.mix ps message d h v in
  let trim := PIDControl.trim_ratio ps in
  let top := inject_Z h + trim * inject_Z v
             + PIDControl.top_fin_offset ps in
  let right := inject_Z d + trim * inject_Z v
               + PIDControl.right_fin_offset ps in
  let left := inject_Z d + trim * inject_Z v
              + PIDControl.left_fin_offset ps in
  (fin_at m 0 =
   float_to_int
     (to_double
        (to_double (inject_Z h + to_double (trim * inject_Z v))
         + PIDControl.top_fin_offset ps))
   /\ fin_at m 1 =
      float_to_int
        (to_double
           (to_double (inject_Z d + to_double (trim * inject_Z v))
            + PIDControl.right_fin_offset ps))
   /\ fin_at m 2 =
      float_to_int
        (to_double
           (to_double (inject_Z d + to_double (trim * inject_Z v))
            + PIDControl.left_fin_offset ps)))
  /\ (Qabs (inject_Z (fin_at m 0) - top)
      < 1 + pow2 (-50) * (Qabs (inject_Z h) + Qabs (trim * inject_Z v)
                          + Qabs (PIDControl.top_fin_offset ps))
        + pow2 (-190)
      /\ Qabs (inject_Z (fin_at m 1) - right)
         < 1 + pow2 (-50) * (Qabs (inject_Z d) + Qabs (trim * inject_Z v)
                             + Qabs (PIDControl.right_fin_offset ps))
           + pow2 (-190)
      /\ Qabs (inject_Z (fin_at m 2) - left)
         < 1 + pow2 (-50) * (Qabs (inject_Z d) + Qabs (trim * inject_Z v)
                             + Qabs (PIDControl.left_fin_offset ps))
           + pow2 (-190))
  /\ (forall t o_top o_right o_left : Z,
        trim == inject_Z t ->
        PIDControl.top_fin_offset ps == inject_Z o_top ->
        PIDControl.right_fin_offset ps == inject_Z o_right ->
        PIDControl.left_fin_offset ps == inject_Z o_left ->
        (Z.abs h < 2 ^ 50)%Z -> (Z.abs d < 2 ^ 50)%Z ->
        (Z.abs (t * v) < 2 ^ 50)%Z ->
        (Z.abs o_top < 2 ^ 50)%Z -> (Z.abs o_right < 2 ^ 50)%Z ->
        (Z.abs o_left < 2 ^ 50)%Z ->
        fin_at m 0 = (h + t * v + o_top)%Z
        /\ fin_at m 1 = (d + t * v + o_right)%Z
        /\ fin_at m 2 = (d + t * v + o_left)%Z)
  /\ (forall s s' now,
        PIDControl.init_flag s = true -> PIDControl.init_flag s' = true ->
        PIDControl.params s = PIDControl.params s' ->
        fst (PID.compute (PIDControl.myDepthPID s)
               (PIDControl.desired_depth s) (- PIDControl.depth s)) =
        fst (PID.compute (PIDControl.myDepthPID s')
               (PIDControl.desired_depth s') (- PIDControl.depth s')) ->
        fst (PID.compute (PIDControl.myHeadingPID s)
               (PIDControl.desired_heading s) (PIDControl.yaw s)) =
        fst (PID.compute (PIDControl.myHeadingPID s')
               (PIDControl.desired_heading s') (PIDControl.yaw s')) ->
        float_to_int (PIDControl.desired_speed s) =
        float_to_int (PIDControl.desired_speed s') ->
        published (snd (PIDControl.timer_callback now s)) =
        published (snd (PIDControl.timer_callback now s'))).
Proof.
  intros Hlen _ _ _. cbv zeta. unfold fin_at.
  rewrite (pid_mix_fins ps message d h v Hlen). cbn [nth].
  split; [repeat split |].
  split; [repeat split; apply pid_fin_close |].
  split.
  - intros t o1 o2 o3 Et E1 E2 E3 Hh Hd Htv H1 H2 H3.
    repeat split; apply pid_fin_exact; assumption.
  - intros s s' now Hf Hf' Hp Hd Hh Hv.
    rewrite !pid_timer_callback_eq, Hf, Hf'. cbv zeta.
    cbn [snd published]. rewrite Hp, Hd, Hh, Hv. reflexivity.
Qed.

Lemma mix_truncated_affine_witness :
  length (fin UCommand_default) = 3%nat
  /\ pid_fin_defined (1 # 2) (-7) 5 0
  /\ pid_fin_defined (1 # 2) 4 5 0
  /\ fin_at (PIDControl.mix pid_half_trim_params UCommand_default 4 (-7) 5) 0
     = (-4)%Z
  /\ Qabs (inject_Z
             (fin_at (PIDControl.mix pid_half_trim_params UCommand_default
                        4 (-7) 5) 0)
           - (inject_Z (-7) + (1 # 2) * inject_Z 5 + 0))
     < 1 + pow2 (-50) * (Qabs (inject_Z (-7)) + Qabs ((1 # 2) * inject_Z 5)
                         + Qabs 0)
       + pow2 (-190).
Proof.
  assert (Ht : pid_fin_defined (1 # 2) (-7) 5 0) by in_range.
  assert (Hd : pid_fin_defined (1 # 2) 4 5 0) by in_range.
  split; [reflexivity |]. split; [exact Ht |]. split; [exact Hd |].
  pose proof (mix_truncated_affine pid_half_trim_params UCommand_default
                4 (-7) 5 eq_refl Ht Hd Hd) as ((H0 & _) & (H1 & _) & _).
  split; [exact H0 | exact H1].
Defined.

(** With a trim ratio of 0.7 (as a double) and a speed level of 10, the
    product rounds to 7 and the top fin is 7. *)
Example mix_rounds_product :
  fin_at (PIDControl.mix
            (PIDControl.mkParams (to_double (7 # 10)) 80 2 0 0 (-100) 100 0
               2 0 0 (-100) 100 0 2 0 0 (-100) 100 0 0 0 0)
            UCommand_default 0 0 10) 0 = 7%Z.
Proof. vm_compute. reflexivity. Qed.

(** ** The measured heading *)

(** The claim C6 read on [pid_control] fails: a status report with a yaw
    field of 450 stores 450, and one with 900 stores 900; no additive
    correction makes both one tenth of the field plus the correction. *)
Lemma yaw_scaling_counterexample :
  let s := PIDControl.init_callback pid_sample_node in
  let y1 := PIDControl.yaw (PIDControl.yaw_callback (mkModemRec 0x10 450) s) in
  let y2 := PIDControl.yaw (PIDControl.yaw_callback (mkModemRec 0x10 900) s) in
  y1 = 450 /\ y2 = 900
  /\ ~ (exists magnetic_declination : Q,
          y1 == (1 # 10) * inject_Z 450 + magnetic_declination
          /\ y2 == (1 # 10) * inject_Z 900 + magnetic_declination).
Proof.
  cbv zeta. repeat (split; [reflexivity |]).
  intros (decl & H1 & H2).
  change (PIDControl.yaw
            (PIDControl.yaw_callback (mkModemRec 16 450)
               (PIDControl.init_callback pid_sample_node))) with 450 in H1.
  change (PIDControl.yaw
            (PIDControl.yaw_callback (mkModemRec 16 900)
               (PIDControl.init_callback pid_sample_node))) with 900 in H2.
  change (inject_Z 450) with 450 in H1.
  change (inject_Z 900) with 900 in H2.
  lra.
Qed.

(** C6 (amended).  In the [coug_controls] node, in every state reached from
    the construction, the heading callback stores one tenth of the
    transmitted integer yaw plus the configured magnetic declination as the
    code evaluates it: the product with the double nearest to one tenth and
    the sum rounded to [double], the result narrowed to the [float] member.
    Where that evaluation is defined, the stored value differs from the
    exact one by at most [2 ^ -23] of the sum of the magnitudes of the two
    terms (plus [2 ^ -149]), and when the node is running the next tick
    passes the stored value as the measured input of the heading
    controller's [compute] call. *)
Theorem coug_actual_heading_scaled :
  forall ps n evs (m : ModemStatus) now,
    CougControls.new ps = Ok n ->
    heading_defined (CougControls.param_magnetic_declination ps)
      (status_attitude_yaw m) ->
    let s := CougControls.actual_heading_callback m
               (fst (CougControls.spin n evs)) in
    let decl := CougControls.param_magnetic_declination ps in
    let yaw := inject_Z (status_attitude_yaw m) in
    CougControls.actual_heading s =
    to_float (to_double (to_double (to_double (1 # 10) * yaw) + decl))
    /\ Qabs (CougControls.actual_heading s - ((1 # 10) * yaw + decl))
       <= pow2 (-23) * ((1 # 10) * Qabs yaw + Qabs decl) + pow2 (-149)
    /\ (CougControls.init_flag s = true ->
        exists dd z dh,
          computes (snd (CougControls.timer_callback now s)) =
          [(Depth, dd, z); (Heading, dh, CougControls.actual_heading s)]).
Proof.
  intros ps n evs m now Hnew (Hyaw & _). cbv zeta.
  destruct (coug_new_inv _ _ Hnew) as (_ & _ & Hdecl & _).
  assert (E : CougControls.actual_heading
                (CougControls.actual_heading_callback m
                   (fst (CougControls.spin n evs))) =
              to_float
                (to_double
                   (to_double (to_double (1 # 10)
                               * inject_Z (status_attitude_yaw m))
                    + CougControls.param_magnetic_declination ps))).
  { cbn [CougControls.actual_heading CougControls.actual_heading_callback].
    rewrite coug_spin_declination, Hdecl. reflexivity. }
  split; [exact E |]. split.
  - rewrite E. apply heading_error. exact Hyaw.
  - intro Hf. rewrite coug_timer_callback_eq, Hf. cbv zeta.
    cbn [snd computes].
    eexists; eexists; eexists; reflexivity.
Qed.

Lemma coug_actual_heading_scaled_witness :
  CougControls.new coug_sample_params = Ok coug_sample_node
  /\ heading_defined (to_double (107 # 10)) 450
  /\ CougControls.actual_heading
       (CougControls.actual_heading_callback (mkModemStatus 450)
          (fst (CougControls.spin coug_sample_node coug_sample_events)))
     = to_float
         (to_double
            (to_double (to_double (1 # 10) * inject_Z 450)
             + to_double (107 # 10))).
Proof.
  assert (Hd : heading_defined (to_double (107 # 10)) 450) by in_range.
  split; [reflexivity |]. split; [exact Hd |].
  exact (proj1 (coug_actual_heading_scaled coug_sample_params
                  coug_sample_node coug_sample_events (mkModemStatus 450)
                  7%Z eq_refl Hd)).
Defined.

(** With the default declination a yaw field of 450 stores the float
    14601421 / 262144. *)
Example coug_heading_of_450 :
  CougControls.actual_heading
    (CougControls.actual_heading_callback (mkModemStatus 450)
       coug_sample_node) = 14601421 # 262144.
Proof. vm_compute. reflexivity. Qed.

(** ** Whole runs *)

Lemma published_app (a b : list effect) :
  published (a ++ b) = published a ++ published b.
Proof.
  induction a as [| [ax d x | m] a IH]; cbn; [reflexivity | exact IH |].
  now rewrite IH.
Qed.

Lemma computes_app (a b : list effect) :
  computes (a ++ b) = computes a ++ computes b.
Proof.
  induction a as [| [ax d x | m] a IH]; cbn; [reflexivity | | exact IH].
  now rewrite IH.
Qed.

Lemma pid_dispatch_effects (s : PIDControl.Node) (e : PIDControl.event) :
  snd (PIDControl.dispatch s e) =
  match e with
  | PIDControl.Timer now =>
      if PIDControl.init_flag s then
        [Compute Depth (PIDControl.desired_depth s) (- PIDControl.depth s);
         Compute Heading (PIDControl.desired_heading s) (PIDControl.yaw s);
         Publish
           (PIDControl.mix (PIDControl.params s)
              (set_stamp UCommand_default now)
              (fst (PID.compute (PIDControl.myDepthPID s)
                      (PIDControl.desired_depth s) (- PIDControl.depth s)))
              (fst (PID.compute (PIDControl.myHeadingPID s)
                      (PIDControl.desired_heading s) (PIDControl.yaw s)))
              (float_to_int (PIDControl.desired_speed s)))]
      else []
  | _ => []
  end.
Proof.
  destruct e; try reflexivity.
  cbn [PIDControl.dispatch]. rewrite pid_timer_callback_eq.
  destruct (PIDControl.init_flag s); reflexivity.
Qed.

Lemma coug_dispatch_effects (s : CougControls.Node) (e : CougControls.event) :
  snd (CougControls.dispatch s e) =
  match e with
  | CougControls.Timer now =>
      if CougControls.init_flag s then
        [Compute Depth (CougControls.desired_depth s)
           (- CougControls.actual_depth s);
         Compute Heading (CougControls.desired_heading s)
           (CougControls.actual_heading s);
         Publish
           (CougControls.mix (set_stamp UCommand_default now)
              (fst (PID.compute (CougControls.myDepthPID s)
                      (CougControls.desired_depth s)
                      (- CougControls.actual_depth s)))
              (fst (PID.compute (CougControls.myHeadingPID s)
                      (CougControls.desired_heading s)
                      (CougControls.actual_heading s)))
              (CougControls.desired_speed s))]
      else []
  | _ => []
  end.
Proof.
  destruct e; try reflexivity.
  cbn [CougControls.dispatch]. rewrite coug_timer_callback_eq.
  destruct (CougControls.init_flag s); reflexivity.
Qed.

Lemma pid_dispatch_flag_eq (s : PIDControl.Node) (e : PIDControl.event) :
  PIDControl.init_flag (fst (PIDControl.dispatch s e)) =
  pid_is_init e || PIDControl.init_flag s.
Proof.
  pid_dispatch_cases s e; try reflexivity. assumption.
Qed.

Lemma coug_dispatch_flag_eq (s : CougControls.Node) (e : CougControls.event) :
  CougControls.init_flag (fst (CougControls.dispatch s e)) =
  coug_is_init e || CougControls.init_flag s.
Proof.
  coug_dispatch_cases s e; try reflexivity. assumption.
Qed.

(** X1.  One command per tick once the flag is set, and none before: the
    stamps of the commands a run publishes are, in order, the times of the
    ticks delivered after the first init message (all ticks when the flag is
    already set), and the run makes two [compute] calls per command.  Both
    node variants. *)
Theorem run_publishes_per_tick :
  (forall evs s,
     map stamp (published (snd (PIDControl.spin s evs))) =
     pid_ticks_when (PIDControl.init_flag s) evs
     /\ length (computes (snd (PIDControl.spin s evs))) =
        (2 * length (pid_ticks_when (PIDControl.init_flag s) evs))%nat)
  /\
  (forall evs s,
     map stamp (published (snd (CougControls.spin s evs))) =
     coug_ticks_when (CougControls.init_flag s) evs
     /\ length (computes (snd (CougControls.spin s evs))) =
        (2 * length (coug_ticks_when (CougControls.init_flag s) evs))%nat).
Proof.
  split; intro evs; induction evs as [| e evs IH]; intro s;
    try (split; reflexivity).
  - rewrite pid_spin_cons. cbn [snd].
    rewrite published_app, computes_app, map_app, length_app.
    destruct (IH (fst (PIDControl.dispatch s e))) as [IHp IHc].
    rewrite IHp, IHc, pid_dispatch_flag_eq, pid_dispatch_effects.
    destruct e; cbn [pid_is_init orb pid_ticks_when published computes map
                       length app]; try (split; reflexivity).
    destruct (PIDControl.init_flag s);
      cbn [published computes map length app stamp]; split;
      try reflexivity; cbn; lia.
  - rewrite coug_spin_cons. cbn [snd].
    rewrite published_app, computes_app, map_app, length_app.
    destruct (IH (fst (CougControls.dispatch s e))) as [IHp IHc].
    rewrite IHp, IHc, coug_dispatch_flag_eq, coug_dispatch_effects.
    destruct e; cbn [coug_is_init orb coug_ticks_when published computes map
                       length app]; try (split; reflexivity).
    destruct (CougControls.init_flag s);
      cbn [published computes map length app stamp]; split;
      try reflexivity; cbn; lia.
Qed.

Lemma pid_dispatch_idle (s : PIDControl.Node) (e : PIDControl.event) :
  PIDControl.init_flag s = false -> pid_is_init e = false ->
  snd (PIDControl.dispatch s e) = []
  /\ PIDControl.init_flag (fst (PIDControl.dispatch s e)) = false
  /\ PIDControl.myDepthPID (fst (PIDControl.dispatch s e)) =
     PIDControl.myDepthPID s
  /\ PIDControl.myHeadingPID (fst (PIDControl.dispatch s e)) =
     PIDControl.myHeadingPID s.
Proof.
  intros Hf He. rewrite pid_dispatch_effects, pid_dispatch_flag_eq, He, Hf.
  split; [destruct e; reflexivity |]. split; [reflexivity |].
  pid_dispatch_cases s e; try (split; reflexivity); congruence.
Qed.

Lemma coug_dispatch_idle (s : CougControls.Node) (e : CougControls.event) :
  CougControls.init_flag s = false -> coug_is_init e = false ->
  snd (CougControls.dispatch s e) = []
  /\ CougControls.init_flag (fst (CougControls.dispatch s e)) = false
  /\ CougControls.myDepthPID (fst (CougControls.dispatch s e)) =
     CougControls.myDepthPID s
  /\ CougControls.myHeadingPID (fst (CougControls.dispatch s e)) =
     CougControls.myHeadingPID s.
Proof.
  intros Hf He. rewrite coug_dispatch_effects, coug_dispatch_flag_eq, He, Hf.
  split; [destruct e; reflexivity |]. split; [reflexivity |].
  coug_dispatch_cases s e; try (split; reflexivity); congruence.
Qed.

(** X2.  Until an init message arrives nothing happens outside the stored
    inputs: a run that starts with the flag unset and holds no init message
    has no effect at all (no [compute] call, no command), ends with the flag
    unset, and leaves both controllers exactly as they were, whatever
    setpoints, measurements and ticks it delivers.  Both node variants. *)
Theorem idle_until_init :
  (forall evs s,
     PIDControl.init_flag s = false ->
     existsb pid_is_init evs = false ->
     snd (PIDControl.spin s evs) = []
     /\ PIDControl.init_flag (fst (PIDControl.spin s evs)) = false
     /\ PIDControl.myDepthPID (fst (PIDControl.spin s evs)) =
        PIDControl.myDepthPID s
     /\ PIDControl.myHeadingPID (fst (PIDControl.spin s evs)) =
        PIDControl.myHeadingPID s)
  /\
  (forall evs s,
     CougControls.init_flag s = false ->
     existsb coug_is_init evs = false ->
     snd (CougControls.spin s evs) = []
     /\ CougControls.init_flag (fst (CougControls.spin s evs)) = false
     /\ CougControls.myDepthPID (fst (CougControls.spin s evs)) =
        CougControls.myDepthPID s
     /\ CougControls.myHeadingPID (fst (CougControls.spin s evs)) =
        CougControls.myHeadingPID s).
Proof.
  split; intro evs; induction evs as [| e evs IH]; intros s Hf Hn;
    try (repeat split; assumption).
  - cbn [existsb] in Hn. apply orb_false_iff in Hn as [He Hn].
    destruct (pid_dispatch_idle s e Hf He) as (Ho & Hf1 & Hd & Hh).
    destruct (IH _ Hf1 Hn) as (IHo & IHf & IHd & IHh).
    rewrite pid_spin_cons. cbn [fst snd]. rewrite Ho, IHo, IHd, IHh.
    repeat split; assumption.
  - cbn [existsb] in Hn. apply orb_false_iff in Hn as [He Hn].
    destruct (coug_dispatch_idle s e Hf He) as (Ho & Hf1 & Hd & Hh).
    destruct (IH _ Hf1 Hn) as (IHo & IHf & IHd & IHh).
    rewrite coug_spin_cons. cbn [fst snd]. rewrite Ho, IHo, IHd, IHh.
    repeat split; assumption.
Qed.

Lemma idle_until_init_witness :
  PIDControl.init_flag pid_sample_node = false
  /\ snd (PIDControl.spin pid_sample_node
            [PIDControl.DesiredDepth 5; PIDControl.Timer 1;
             PIDControl.DepthData (-3); PIDControl.Timer 2]) = [].
Proof.
  split; [reflexivity |].
  apply (proj1 idle_until_init
           [PIDControl.DesiredDepth 5; PIDControl.Timer 1;
            PIDControl.DepthData (-3); PIDControl.Timer 2]
           pid_sample_node); reflexivity.
Defined.

Lemma pid_dispatch_inputs (s s' : PIDControl.Node) (e : PIDControl.event) :
  pid_inputs s = pid_inputs s' ->
  pid_inputs (fst (PIDControl.dispatch s e)) =
  (if pid_is_timer e then pid_inputs s'
   else pid_inputs (fst (PIDControl.dispatch s' e))).
Proof.
  unfold pid_inputs. intro H. injection H as Hp Hf Hdd Hdh Hsp Hy Hx Hz.
  destruct e as [| ? | ? | ? | ? | m | now];
    cbn [PIDControl.dispatch fst pid_is_timer].
  6: { unfold PIDControl.yaw_callback. destruct (msg_id m =? 16)%Z; cbn;
       congruence. }
  6: { rewrite pid_timer_callback_eq. destruct (PIDControl.init_flag s) eqn:E;
       cbn; congruence. }
  all: cbn; congruence.
Qed.

Lemma coug_dispatch_inputs (s s' : CougControls.Node)
    (e : CougControls.event) :
  coug_inputs s = coug_inputs s' ->
  coug_inputs (fst (CougControls.dispatch s e)) =
  (if coug_is_timer e then coug_inputs s'
   else coug_inputs (fst (CougControls.dispatch s' e))).
Proof.
  unfold coug_inputs. intro H. injection H as Hp Hf Hm Hdd Hdh Hsp Hz Hy.
  destruct e as [| ? | ? | ? | ? | m | now];
    cbn [CougControls.dispatch fst coug_is_timer].
  7: { rewrite coug_timer_callback_eq.
       destruct (CougControls.init_flag s) eqn:E; cbn; congruence. }
  all: cbn; congruence.
Qed.

(** X3.  A tick never writes the stored inputs: after any run, the
    parameters, the flag and every stored setpoint and measurement are what
    the same run with all its ticks removed leaves.  Both node variants. *)
Theorem ticks_leave_inputs :
  (forall evs s,
     pid_inputs (fst (PIDControl.spin s evs)) =
     pid_inputs (fst (PIDControl.spin s
                        (filter (fun e => negb (pid_is_timer e)) evs))))
  /\
  (forall evs s,
     coug_inputs (fst (CougControls.spin s evs)) =
     coug_inputs (fst (CougControls.spin s
                         (filter (fun e => negb (coug_is_timer e)) evs)))).
Proof.
  split.
  - assert (H : forall evs s s', pid_inputs s = pid_inputs s' ->
              pid_inputs (fst (PIDControl.spin s evs)) =
              pid_inputs (fst (PIDControl.spin s'
                        (filter (fun e => negb (pid_is_timer e)) evs)))).
    { induction evs as [| e evs IH]; intros s s' E; [exact E |].
      rewrite pid_spin_cons. cbn [fst filter].
      pose proof (pid_dispatch_inputs s s' e E) as Hs.
      destruct (pid_is_timer e); cbn [negb].
      - apply IH, Hs.
      - rewrite pid_spin_cons. cbn [fst]. apply IH, Hs. }
    intros evs s. apply H. reflexivity.
  - assert (H : forall evs s s', coug_inputs s = coug_inputs s' ->
              coug_inputs (fst (CougControls.spin s evs)) =
              coug_inputs (fst (CougControls.spin s'
                        (filter (fun e => negb (coug_is_timer e)) evs)))).
    { induction evs as [| e evs IH]; intros s s' E; [exact E |].
      rewrite coug_spin_cons. cbn [fst filter].
      pose proof (coug_dispatch_inputs s s' e E) as Hs.
      destruct (coug_is_timer e); cbn [negb].
      - apply IH, Hs.
      - rewrite coug_spin_cons. cbn [fst]. apply IH, Hs. }
    intros evs s. apply H. reflexivity.
Qed.

Lemma pid_dispatch_velocity (s : PIDControl.Node) (e : PIDControl.event) :
  PIDControl.myVelocityPID (fst (PIDControl.dispatch s e)) =
  PIDControl.myVelocityPID s
  /\ PIDControl.x_velocity (fst (PIDControl.dispatch s e)) =
     PIDControl.x_velocity s
  /\ Forall (fun c => fst (fst c) <> Velocity)
       (computes (snd (PIDControl.dispatch s e))).
Proof.
  rewrite pid_dispatch_effects.
  pid_dispatch_cases s e; repeat split; try constructor;
    try discriminate; try constructor; try discriminate; constructor.
Qed.

(** X4.  The [pid_control] node never uses its speed controller: over any
    run from any state, [myVelocityPID] and the stored [x_velocity] stay as
    they were, and no [compute] call in the whole trace is on the speed
    axis. *)
Theorem velocity_controller_unused (evs : list PIDControl.event) :
  forall s,
    PIDControl.myVelocityPID (fst (PIDControl.spin s evs)) =
    PIDControl.myVelocityPID s
    /\ PIDControl.x_velocity (fst (PIDControl.spin s evs)) =
       PIDControl.x_velocity s
    /\ Forall (fun c => fst (fst c) <> Velocity)
         (computes (snd (PIDControl.spin s evs))).
Proof.
  induction evs as [| e evs IH]; intro s.
  - repeat split. constructor.
  - rewrite pid_spin_cons. cbn [fst snd]. rewrite computes_app.
    destruct (pid_dispatch_velocity s e) as (Hv & Hx & Hc).
    destruct (IH (fst (PIDControl.dispatch s e))) as (IHv & IHx & IHc).
    repeat split; [congruence | congruence |].
    apply Forall_app. split; assumption.
Qed.

(** X5.  Modem reports that are not status reports are invisible to the
    [pid_control] node: removing from a run every report whose [msg_id] is
    not 0x10 changes neither the final state nor the effects of the run. *)
Theorem non_status_reports_ignored (evs : list PIDControl.event) :
  forall s,
    PIDControl.spin s evs = PIDControl.spin s (filter pid_is_read evs).
Proof.
  induction evs as [| e evs IH]; intro s; [reflexivity |].
  cbn [filter]. destruct (pid_is_read e) eqn:E.
  - rewrite !pid_spin_cons, IH. reflexivity.
  - destruct e; try discriminate. cbn [pid_is_read] in E.
    rewrite pid_spin_cons. cbn [PIDControl.dispatch fst snd app].
    unfold PIDControl.yaw_callback. rewrite E, <- IH.
    destruct (PIDControl.spin s evs). reflexivity.
Qed.

Lemma wrap_int_min : wrap_int (- INT_MIN) = INT_MIN.
Proof. reflexivity. Qed.

Lemma coug_dispatch_opposed (s : CougControls.Node) (e : CougControls.event) :
  Forall (fun m => fin_at m 1 = wrap_int (- fin_at m 2))
    (published (snd (CougControls.dispatch s e))).
Proof.
  rewrite coug_dispatch_effects.
  destruct e; try constructor.
  destruct (CougControls.init_flag s); cbn [published]; constructor;
    [| constructor].
  unfold fin_at, CougControls.mix, int_mul.
  cbn [fin set_fin set_thruster set_stamp UCommand_default update_nth nth].
  f_equal.
Qed.

(** X6.  Every command the [coug_controls] node ever publishes carries on
    the right fin the 32-bit negation of the left fin: the right fin is
    the negation of the left fin, the two summing to zero, whenever that
    negation is an [int]; when the left fin is [INT_MIN], the one [int]
    without a negation, the right fin is [INT_MIN] too. *)
Theorem coug_depth_fins_opposed (evs : list CougControls.event) :
  forall s,
    Forall (fun m => fin_at m 1 = wrap_int (- fin_at m 2)
                     /\ (int_range (- fin_at m 2) ->
                         fin_at m 1 = (- fin_at m 2)%Z
                         /\ (fin_at m 1 + fin_at m 2 = 0)%Z)
                     /\ (fin_at m 2 = INT_MIN -> fin_at m 1 = INT_MIN))
      (published (snd (CougControls.spin s evs))).
Proof.
  induction evs as [| e evs IH]; intro s; [constructor |].
  rewrite coug_spin_cons. cbn [snd]. rewrite published_app.
  apply Forall_app. split; [| apply IH].
  eapply Forall_impl; [| apply coug_dispatch_opposed].
  intros m H. split; [exact H |]. split.
  - intro Hr. rewrite H, (wrap_int_id _ Hr). split; lia.
  - intro Hm. rewrite H, Hm. apply wrap_int_min.
Qed.

Lemma coug_depth_fins_opposed_witness :
  Forall (fun m => int_range (- fin_at m 2)
                   /\ fin_at m 1 = (- fin_at m 2)%Z)
    (published
       (snd (CougControls.spin coug_sample_node
               (coug_sample_events ++ [CougControls.Timer 7])))).
Proof.
  pose proof (coug_depth_fins_opposed
                (coug_sample_events ++ [CougControls.Timer 7])
                coug_sample_node) as H.
  apply Forall_inv in H. destruct H as (_ & H & _).
  assert (Hr : int_range (- 4)) by in_range.
  constructor; [| constructor].
  split; [exact Hr |]. exact (proj1 (H Hr)).
Defined.

(** At a depth output of [INT_MIN] both depth fins carry [INT_MIN]. *)
Example coug_fins_at_int_min :
  fin (CougControls.mix UCommand_default INT_MIN 0 0) =
  [0%Z; INT_MIN; INT_MIN].
Proof. reflexivity. Qed.

Lemma float_to_int_toward_zero (x : Q) :
  Qabs (inject_Z (float_to_int x)) <= Qabs x
  /\ 0 <= inject_Z (float_to_int x) * x.
Proof.
  unfold float_to_int. destruct (Qle_bool 0 x) eqn:E.
  - apply Qle_bool_iff in E.
    assert (H0 : 0 <= inject_Z (Qfloor x)).
    { change 0 with (inject_Z 0). rewrite <- Zle_Qle.
      rewrite <- (Qfloor_Z 0). apply Qfloor_resp_le. exact E. }
    pose proof (Qfloor_le x) as Hl.
    split.
    + rewrite (Qabs_pos _ H0), (Qabs_pos _ E). exact Hl.
    + apply Qmult_le_0_compat; assumption.
  - assert (Hx : x < 0).
    { apply Qnot_le_lt. intro H. apply Qle_bool_iff in H. congruence. }
    assert (H0 : inject_Z (Qceiling x) <= 0).
    { change 0 with (inject_Z 0). rewrite <- Zle_Qle.
      rewrite <- (Qceiling_Z 0). apply Qceiling_resp_le.
      apply Qlt_le_weak, Hx. }
    pose proof (Qle_ceiling x) as Hu.
    split.
    + assert (Hx' : x <= 0) by lra.
      rewrite (Qabs_neg _ H0), (Qabs_neg x Hx'). lra.
    + setoid_replace (inject_Z (Qceiling x) * x)
        with ((- inject_Z (Qceiling x)) * (- x)) by ring.
      apply Qmult_le_0_compat; lra.
Qed.

(** X7.  The thruster command never exceeds the demand: in both nodes, when
    the stored desired speed converts to an integer, the command a running
    tick publishes has a thruster value whose magnitude is at most that of
    the stored desired speed, that misses it by less than one, and that
    never has the opposite sign. *)
Theorem thruster_toward_zero :
  (forall s now,
     PIDControl.init_flag s = true ->
     fits_int (PIDControl.desired_speed s) ->
     exists m,
       published (snd (PIDControl.timer_callback now s)) = [m]
       /\ int_range (thruster m)
       /\ Qabs (inject_Z (thruster m)) <= Qabs (PIDControl.desired_speed s)
       /\ Qabs (inject_Z (thruster m) - PIDControl.desired_speed s) < 1
       /\ 0 <= inject_Z (thruster m) * PIDControl.desired_speed s)
  /\
  (forall s now,
     CougControls.init_flag s = true ->
     fits_int (CougControls.desired_speed s) ->
     exists m,
       published (snd (CougControls.timer_callback now s)) = [m]
       /\ int_range (thruster m)
       /\ Qabs (inject_Z (thruster m)) <= Qabs (CougControls.desired_speed s)
       /\ Qabs (inject_Z (thruster m) - CougControls.desired_speed s) < 1
       /\ 0 <= inject_Z (thruster m) * CougControls.desired_speed s).
Proof.
  split; intros s now Hf Hfit.
  - rewrite pid_timer_callback_eq, Hf. cbv zeta. cbn [snd published].
    eexists. split; [reflexivity |].
    cbn [thruster PIDControl.mix set_thruster].
    destruct (float_to_int_toward_zero (PIDControl.desired_speed s)).
    repeat split; try assumption; try apply Hfit. apply float_to_int_error.
  - rewrite coug_timer_callback_eq, Hf. cbv zeta. cbn [snd published].
    eexists. split; [reflexivity |].
    cbn [thruster CougControls.mix set_thruster].
    destruct (float_to_int_toward_zero (CougControls.desired_speed s)).
    repeat split; try assumption; try apply Hfit. apply float_to_int_error.
Qed.

Lemma thruster_toward_zero_witness :
  PIDControl.init_flag
    (fst (PIDControl.spin pid_sample_node pid_sample_events)) = true
  /\ fits_int (25 # 2)
  /\ exists m,
       published (snd (PIDControl.timer_callback 7
         (fst (PIDControl.spin pid_sample_node pid_sample_events)))) = [m]
       /\ int_range (thruster m)
       /\ Qabs (inject_Z (thruster m)) <= Qabs (25 # 2)
       /\ Qabs (inject_Z (thruster m) - (25 # 2)) < 1
       /\ 0 <= inject_Z (thruster m) * (25 # 2).
Proof.
  assert (Hsp : fits_int (25 # 2)) by in_range.
  split; [reflexivity |]. split; [exact Hsp |].
  exact (proj1 thruster_toward_zero
           (fst (PIDControl.spin pid_sample_node pid_sample_events))
           7%Z eq_refl Hsp).
Defined.

(** X8.  The [coug_controls] node does not wrap the heading it stores: in
    every state reached from the construction, a status report whose yaw
    field is within half a turn (-1800 to 1800 tenths of a degree) and
    whose heading is defined stores a value within the rounding slack
    [2 ^ -23 * (180 + |declination|) + 2 ^ -149] of one tenth of the field
    plus the configured declination, hence between the declination minus
    180 and plus 180, up to that slack. *)
Theorem coug_heading_not_wrapped :
  forall ps n evs (m : ModemStatus),
    CougControls.new ps = Ok n ->
    heading_defined (CougControls.param_magnetic_declination ps)
      (status_attitude_yaw m) ->
    (-1800 <= status_attitude_yaw m <= 1800)%Z ->
    let s := fst (CougControls.spin n evs) in
    let decl := CougControls.param_magnetic_declination ps in
    let slack := pow2 (-23) * (180 + Qabs decl) + pow2 (-149) in
    let stored :=
      CougControls.actual_heading (CougControls.actual_heading_callback m s) in
    Qabs (stored - ((1 # 10) * inject_Z (status_attitude_yaw m) + decl))
    <= slack
    /\ decl - 180 - slack <= stored <= decl + 180 + slack.
Proof.
  intros ps n evs m Hnew (Hyaw & _) [Hlo Hhi]. cbv zeta.
  destruct (coug_new_inv _ _ Hnew) as (_ & _ & Hdecl & _).
  cbn [CougControls.actual_heading CougControls.actual_heading_callback].
  rewrite coug_spin_declination, Hdecl.
  pose proof (heading_error (status_attitude_yaw m)
                (CougControls.param_magnetic_declination ps) Hyaw) as He.
  set (y := inject_Z (status_attitude_yaw m)) in *.
  set (decl := CougControls.param_magnetic_declination ps) in *.
  set (stored := to_float (to_double (to_double (to_double (1 # 10) * y)
                                      + decl))) in *.
  assert (Hy : -(1800) <= y <= 1800).
  { unfold y. rewrite Zle_Qle in Hlo, Hhi.
    change (inject_Z (-1800)) with (-(1800)) in Hlo.
    change (inject_Z 1800) with 1800 in Hhi. split; assumption. }
  assert (HY : Qabs y <= 1800) by (apply Qabs_Qle_condition; exact Hy).
  pose proof (Qabs_nonneg decl) as D0.
  assert (Hs : Qabs (stored - ((1 # 10) * y + decl))
               <= pow2 (-23) * (180 + Qabs decl) + pow2 (-149)).
  { eapply Qle_trans; [exact He |]. pow2_values. lra. }
  split; [exact Hs |].
  apply Qabs_Qle_condition in Hs. lra.
Qed.

Lemma coug_heading_not_wrapped_witness :
  CougControls.new coug_sample_params = Ok coug_sample_node
  /\ heading_defined (to_double (107 # 10)) 1800
  /\ (-1800 <= status_attitude_yaw (mkModemStatus 1800) <= 1800)%Z
  /\ CougControls.actual_heading
       (CougControls.actual_heading_callback (mkModemStatus 1800)
          (fst (CougControls.spin coug_sample_node coug_sample_events)))
     <= to_double (107 # 10) + 180
        + (pow2 (-23) * (180 + Qabs (to_double (107 # 10))) + pow2 (-149)).
Proof.
  assert (Hd : heading_defined (to_double (107 # 10)) 1800) by in_range.
  split; [reflexivity |]. split; [exact Hd |]. split; [cbn; lia |].
  apply (coug_heading_not_wrapped coug_sample_params coug_sample_node
           coug_sample_events (mkModemStatus 1800) eq_refl Hd).
  cbn; lia.
Defined.

(** With the default declination a yaw field of 1800 stores a heading
    beyond half a turn, and one of -1800 a heading below the declination
    minus 180. *)
Example coug_heading_beyond_half_turn :
  180 < CougControls.actual_heading
          (CougControls.actual_heading_callback (mkModemStatus 1800)
             coug_sample_node)
  /\ CougControls.actual_heading
       (CougControls.actual_heading_callback (mkModemStatus (-1800))
          coug_sample_node)
     < to_double (107 # 10) - 180.
Proof. split; vm_compute; reflexivity. Qed.

(** ** The two axes do not interfere *)

Lemma pid_top_part ps now d h v :
  top_part (PIDControl.mix ps (set_stamp UCommand_default now) d h v) =
  (now,
   float_to_int
     (to_double
        (to_double (inject_Z h
                    + to_double (PIDControl.trim_ratio ps * inject_Z v))
         + PIDControl.top_fin_offset ps)),
   v).
Proof. reflexivity. Qed.

Lemma pid_depth_part ps now d h v :
  depth_part (PIDControl.mix ps (set_stamp UCommand_default now) d h v) =
  (now,
   float_to_int
     (to_double
        (to_double (inject_Z d
                    + to_double (PIDControl.trim_ratio ps * inject_Z v))
         + PIDControl.right_fin_offset ps)),
   float_to_int
     (to_double
        (to_double (inject_Z d
                    + to_double (PIDControl.trim_ratio ps * inject_Z v))
         + PIDControl.left_fin_offset ps))).
Proof. reflexivity. Qed.

Lemma pid_heading_side_step (s s' : PIDControl.Node) (e : PIDControl.event) :
  pid_heading_side s = pid_heading_side s' ->
  pid_heading_side (fst (PIDControl.dispatch s e)) =
  pid_heading_side (fst (PIDControl.dispatch s' e))
  /\ map top_part (published (snd (PIDControl.dispatch s e))) =
     map top_part (published (snd (PIDControl.dispatch s' e))).
Proof.
  unfold pid_heading_side. intro H. injection H as Hp Hf Hh Hdh Hsp Hy.
  rewrite !pid_dispatch_effects.
  destruct e as [| ? | ? | ? | ? | m | now]; cbn [PIDControl.dispatch fst].
  6: { unfold PIDControl.yaw_callback. destruct (msg_id m =? 16)%Z; cbn;
       split; congruence. }
  6: { rewrite !pid_timer_callback_eq, <- Hf.
       destruct (PIDControl.init_flag s) eqn:Ef; cbv zeta;
         cbn [fst snd published map]; [| split; congruence].
       rewrite !pid_top_part.
       cbn [PIDControl.params PIDControl.init_flag PIDControl.myHeadingPID
              PIDControl.desired_heading PIDControl.desired_speed
              PIDControl.yaw].
       split; congruence. }
  all: cbn; split; congruence.
Qed.

Lemma pid_depth_side_step (s s' : PIDControl.Node) (e : PIDControl.event) :
  pid_depth_side s = pid_depth_side s' ->
  pid_depth_side (fst (PIDControl.dispatch s e)) =
  pid_depth_side (fst (PIDControl.dispatch s' e))
  /\ map depth_part (published (snd (PIDControl.dispatch s e))) =
     map depth_part (published (snd (PIDControl.dispatch s' e))).
Proof.
  unfold pid_depth_side. intro H. injection H as Hp Hf Hd Hdd Hsp Hz.
  rewrite !pid_dispatch_effects.
  destruct e as [| ? | ? | ? | ? | m | now]; cbn [PIDControl.dispatch fst].
  6: { unfold PIDControl.yaw_callback. destruct (msg_id m =? 16)%Z; cbn;
       split; congruence. }
  6: { rewrite !pid_timer_callback_eq, <- Hf.
       destruct (PIDControl.init_flag s) eqn:Ef; cbv zeta;
         cbn [fst snd published map]; [| split; congruence].
       rewrite !pid_depth_part.
       cbn [PIDControl.params PIDControl.init_flag PIDControl.myDepthPID
              PIDControl.desired_depth PIDControl.desired_speed
              PIDControl.depth].
       split; congruence. }
  all: cbn; split; congruence.
Qed.

Lemma pid_heading_side_skip (s : PIDControl.Node) (e : PIDControl.event) :
  pid_is_depth_input e = true ->
  pid_heading_side (fst (PIDControl.dispatch s e)) = pid_heading_side s
  /\ snd (PIDControl.dispatch s e) = [].
Proof.
  destruct e; try discriminate; intros _; split; reflexivity.
Qed.

Lemma pid_depth_side_skip (s : PIDControl.Node) (e : PIDControl.event) :
  pid_is_heading_input e = true ->
  pid_depth_side (fst (PIDControl.dispatch s e)) = pid_depth_side s
  /\ snd (PIDControl.dispatch s e) = [].
Proof.
  destruct e as [| ? | ? | ? | ? | m | now]; try discriminate; intros _;
    cbn [PIDControl.dispatch fst snd].
  - split; reflexivity.
  - unfold PIDControl.yaw_callback. destruct (msg_id m =? 16)%Z;
      split; reflexivity.
Qed.

(** X9.  In the [pid_control] node the two axes do not interfere.  Removing
    from a run every depth message (desired depth, depth data) changes
    neither the stamp, the top fin nor the thruster of any published
    command; removing every heading message (desired heading, modem report)
    changes neither the stamp nor the two depth fins of any command. *)
Theorem pid_axes_do_not_interfere :
  forall evs s,
    map top_part (published (snd (PIDControl.spin s evs))) =
    map top_part
      (published (snd (PIDControl.spin s
         (filter (fun e => negb (pid_is_depth_input e)) evs))))
    /\ map depth_part (published (snd (PIDControl.spin s evs))) =
       map depth_part
         (published (snd (PIDControl.spin s
            (filter (fun e => negb (pid_is_heading_input e)) evs)))).
Proof.
  assert (Ht : forall evs s s', pid_heading_side s = pid_heading_side s' ->
            map top_part (published (snd (PIDControl.spin s evs))) =
            map top_part
              (published (snd (PIDControl.spin s'
                 (filter (fun e => negb (pid_is_depth_input e)) evs))))).
  { induction evs as [| e evs IH]; intros s s' E; [reflexivity |].
    rewrite pid_spin_cons. cbn [snd filter].
    rewrite published_app, map_app.
    destruct (pid_is_depth_input e) eqn:Ee; cbn [negb].
    - destruct (pid_heading_side_skip s e Ee) as [Hs Ho].
      rewrite Ho. cbn [published map app]. apply IH. congruence.
    - destruct (pid_heading_side_step s s' e E) as [Hs Ho].
      rewrite pid_spin_cons. cbn [snd]. rewrite published_app, map_app.
      rewrite Ho. f_equal. apply IH, Hs. }
  assert (Hd : forall evs s s', pid_depth_side s = pid_depth_side s' ->
            map depth_part (published (snd (PIDControl.spin s evs))) =
            map depth_part
              (published (snd (PIDControl.spin s'
                 (filter (fun e => negb (pid_is_heading_input e)) evs))))).
  { induction evs as [| e evs IH]; intros s s' E; [reflexivity |].
    rewrite pid_spin_cons. cbn [snd filter].
    rewrite published_app, map_app.
    destruct (pid_is_heading_input e) eqn:Ee; cbn [negb].
    - destruct (pid_depth_side_skip s e Ee) as [Hs Ho].
      rewrite Ho. cbn [published map app]. apply IH. congruence.
    - destruct (pid_depth_side_step s s' e E) as [Hs Ho].
      rewrite pid_spin_cons. cbn [snd]. rewrite published_app, map_app.
      rewrite Ho. f_equal. apply IH, Hs. }
  intros evs s. split; [apply Ht | apply Hd]; reflexivity.
Qed.

Lemma coug_top_part now d h sp :
  top_part (CougControls.mix (set_stamp UCommand_default now) d h sp) =
  (now, h, float_to_int sp).
Proof. reflexivity. Qed.

Lemma coug_depth_part now d h sp :
  depth_part (CougControls.mix (set_stamp UCommand_default now) d h sp) =
  (now, int_mul (-1) d, d).
Proof. reflexivity. Qed.

Lemma coug_heading_side_step (s s' : CougControls.Node)
    (e : CougControls.event) :
  coug_heading_side s = coug_heading_side s' ->
  coug_heading_side (fst (CougControls.dispatch s e)) =
  coug_heading_side (fst (CougControls.dispatch s' e))
  /\ map top_part (published (snd (CougControls.dispatch s e))) =
     map top_part (published (snd (CougControls.dispatch s' e))).
Proof.
  unfold coug_heading_side. intro H. injection H as Hf Hh Hm Hdh Hsp Hy.
  rewrite !coug_dispatch_effects.
  destruct e as [| ? | ? | ? | ? | m | now]; cbn [CougControls.dispatch fst].
  7: { rewrite !coug_timer_callback_eq, <- Hf.
       destruct (CougControls.init_flag s) eqn:Ef; cbv zeta;
         cbn [fst snd published map]; [| split; congruence].
       rewrite !coug_top_part.
       cbn [CougControls.init_flag CougControls.myHeadingPID
              CougControls.magnetic_declination CougControls.desired_heading
              CougControls.desired_speed CougControls.actual_heading].
       split; congruence. }
  all: cbn; split; congruence.
Qed.

Lemma coug_depth_side_step (s s' : CougControls.Node)
    (e : CougControls.event) :
  coug_depth_side s = coug_depth_side s' ->
  coug_depth_side (fst (CougControls.dispatch s e)) =
  coug_depth_side (fst (CougControls.dispatch s' e))
  /\ map depth_part (published (snd (CougControls.dispatch s e))) =
     map depth_part (published (snd (CougControls.dispatch s' e))).
Proof.
  unfold coug_depth_side. intro H. injection H as Hf Hd Hdd Hsp Hz.
  rewrite !coug_dispatch_effects.
  destruct e as [| ? | ? | ? | ? | m | now]; cbn [CougControls.dispatch fst].
  7: { rewrite !coug_timer_callback_eq, <- Hf.
       destruct (CougControls.init_flag s) eqn:Ef; cbv zeta;
         cbn [fst snd published map]; [| split; congruence].
       rewrite !coug_depth_part.
       cbn [CougControls.init_flag CougControls.myDepthPID
              CougControls.desired_depth CougControls.desired_speed
              CougControls.actual_depth].
       split; congruence. }
  all: cbn; split; congruence.
Qed.

Lemma coug_heading_side_skip (s : CougControls.Node)
    (e : CougControls.event) :
  coug_is_depth_input e = true ->
  coug_heading_side (fst (CougControls.dispatch s e)) = coug_heading_side s
  /\ snd (CougControls.dispatch s e) = [].
Proof.
  destruct e; try discriminate; intros _; split; reflexivity.
Qed.

Lemma coug_depth_side_skip (s : CougControls.Node) (e : CougControls.event) :
  coug_is_heading_input e = true ->
  coug_depth_side (fst (CougControls.dispatch s e)) = coug_depth_side s
  /\ snd (CougControls.dispatch s e) = [].
Proof.
  destruct e; try discriminate; intros _; split; reflexivity.
Qed.

(** X10.  In the [coug_controls] node the two axes do not interfere.
    Removing from a run every depth message (desired depth, depth data)
    changes neither the stamp, the top fin nor the thruster of any published
    command; removing every heading message (desired heading, modem status)
    changes neither the stamp nor the two depth fins of any command. *)
Theorem coug_axes_do_not_interfere :
  forall evs s,
    map top_part (published (snd (CougControls.spin s evs))) =
    map top_part
      (published (snd (CougControls.spin s
         (filter (fun e => negb (coug_is_depth_input e)) evs))))
    /\ map depth_part (published (snd (CougControls.spin s evs))) =
       map depth_part
         (published (snd (CougControls.spin s
            (filter (fun e => negb (coug_is_heading_input e)) evs)))).
Proof.
  assert (Ht : forall evs s s', coug_heading_side s = coug_heading_side s' ->
            map top_part (published (snd (CougControls.spin s evs))) =
            map top_part
              (published (snd (CougControls.spin s'
                 (filter (fun e => negb (coug_is_depth_input e)) evs))))).
  { induction evs as [| e evs IH]; intros s s' E; [reflexivity |].
    rewrite coug_spin_cons. cbn [snd filter].
    rewrite published_app, map_app.
    destruct (coug_is_depth_input e) eqn:Ee; cbn [negb].
    - destruct (coug_heading_side_skip s e Ee) as [Hs Ho].
      rewrite Ho. cbn [published map app]. apply IH. congruence.
    - destruct (coug_heading_side_step s s' e E) as [Hs Ho].
      rewrite coug_spin_cons. cbn [snd]. rewrite published_app, map_app.
      rewrite Ho. f_equal. apply IH, Hs. }
  assert (Hd : forall evs s s', coug_depth_side s = coug_depth_side s' ->
            map depth_part (published (snd (CougControls.spin s evs))) =
            map depth_part
              (published (snd (CougControls.spin s'
                 (filter (fun e => negb (coug_is_heading_input e)) evs))))).
  { induction evs as [| e evs IH]; intros s s' E; [reflexivity |].
    rewrite coug_spin_cons. cbn [snd filter].
    rewrite published_app, map_app.
    destruct (coug_is_heading_input e) eqn:Ee; cbn [negb].
    - destruct (coug_depth_side_skip s e Ee) as [Hs Ho].
      rewrite Ho. cbn [published map app]. apply IH. congruence.
    - destruct (coug_depth_side_step s s' e E) as [Hs Ho].
      rewrite coug_spin_cons. cbn [snd]. rewrite published_app, map_app.
      rewrite Ho. f_equal. apply IH, Hs. }
  intros evs s. split; [apply Ht | apply Hd]; reflexivity.
Qed.

(** ** Messages between ticks *)

#[local] Opaque to_float to_double.

(** X11.  Between ticks only the latest message of each topic matters and
    the order across topics does not: in both nodes, two messages (not
    ticks) from different topics can be delivered in either order with the
    same resulting state, and a second message on the same topic leaves the
    state the second message alone gives (for a modem report of
    [pid_control], when the second one is a status report). *)
Theorem messages_commute_and_overwrite :
  (forall s e1 e2,
     pid_source e1 <> FromTimer -> pid_source e2 <> FromTimer ->
     (pid_source e1 <> pid_source e2 ->
      fst (PIDControl.dispatch (fst (PIDControl.dispatch s e1)) e2) =
      fst (PIDControl.dispatch (fst (PIDControl.dispatch s e2)) e1))
     /\ (pid_source e1 = pid_source e2 -> pid_is_read e2 = true ->
         fst (PIDControl.dispatch (fst (PIDControl.dispatch s e1)) e2) =
         fst (PIDControl.dispatch s e2)))
  /\
  (forall s e1 e2,
     coug_source e1 <> FromTimer -> coug_source e2 <> FromTimer ->
     (coug_source e1 <> coug_source e2 ->
      fst (CougControls.dispatch (fst (CougControls.dispatch s e1)) e2) =
      fst (CougControls.dispatch (fst (CougControls.dispatch s e2)) e1))
     /\ (coug_source e1 = coug_source e2 ->
         fst (CougControls.dispatch (fst (CougControls.dispatch s e1)) e2) =
         fst (CougControls.dispatch s e2))).
Proof.
  split; intros s e1 e2 H1 H2.
  - split.
    + intro Hne.
      destruct e1 as [| ? | ? | ? | ? | m1 | ?];
        destruct e2 as [| ? | ? | ? | ? | m2 | ?];
        cbn [pid_source] in H1, H2, Hne; try contradiction;
        cbn [PIDControl.dispatch fst]; try reflexivity;
        unfold PIDControl.yaw_callback;
        match goal with
        | |- context [(msg_id ?m =? 16)%Z] => destruct (msg_id m =? 16)%Z
        end; reflexivity.
    + intros He Hr.
      destruct e1 as [| ? | ? | ? | ? | m1 | ?];
        destruct e2 as [| ? | ? | ? | ? | m2 | ?];
        cbn [pid_source] in H1, H2, He; try discriminate;
        try contradiction; cbn [PIDControl.dispatch fst]; try reflexivity.
      cbn [pid_is_read] in Hr. unfold PIDControl.yaw_callback. rewrite Hr.
      destruct (msg_id m1 =? 16)%Z; reflexivity.
  - split.
    + intro Hne.
      destruct e1, e2; cbn [coug_source] in H1, H2, Hne; try contradiction;
        reflexivity.
    + intro He.
      destruct e1, e2; cbn [coug_source] in H1, H2, He; try discriminate;
        try contradiction; reflexivity.
Qed.

#[local] Transparent to_float to_double.

Lemma messages_commute_and_overwrite_witness :
  fst (PIDControl.dispatch
         (fst (PIDControl.dispatch pid_sample_node (PIDControl.DesiredDepth 5)))
         (PIDControl.ModemRecMsg (mkModemRec 0x10 450))) =
  fst (PIDControl.dispatch
         (fst (PIDControl.dispatch pid_sample_node
                 (PIDControl.ModemRecMsg (mkModemRec 0x10 450))))
         (PIDControl.DesiredDepth 5)).
Proof.
  apply (proj1 (proj1 messages_commute_and_overwrite pid_sample_node
                  (PIDControl.DesiredDepth 5)
                  (PIDControl.ModemRecMsg (mkModemRec 0x10 450))
                  ltac:(discriminate) ltac:(discriminate)));
    discriminate.
Defined.
